(** * go-mcache: a shallow embedding of [cache.go]

    The cache is a Go map from keys to [valuePtr] records together with a
    doubly linked queue of [item] nodes ordered by expiration time.  The
    queue nodes live on the Go heap and are linked through [Prev]/[Next]
    pointers, so the embedding keeps an explicit heap of nodes addressed
    by natural numbers; a pointer is an [option addr] with [None] for
    [nil].

    Every method is a state transformer over [Cache] that either returns
    ([Done]), dereferences a [nil] pointer ([Panic], with the state
    reached at the moment of the fault), or leaves the model ([Abort]:
    a loop ran out of fuel or an address is not allocated; neither can
    happen from a well-formed cache, which is proved below).

    Time is an integer number of nanoseconds; [time.Now()] is an argument
    of the methods that read the clock.  The mutex is not modelled: every
    method body runs atomically, as it does under the lock.  The field
    [timer] is the deadline of the wait started by the last [setTimer]
    (see there for what this leaves out of the goroutines of the
    source). *)

From stdpp Require Import base gmap list sorting.
From Stdlib Require Import ZArith Lia.

#[local] Set Warnings "-clear-no-such-hyp".

Module MCache.

Abbreviation addr := nat (only parsing).
Abbreviation ptr := (option nat) (only parsing).

Section Model.

Context {K : Type} `{Countable K}.
Context {V : Type}.

(** The zero value of the value type [V]. *)
Variable zero : V.

(** ** Data *)

(** [type item[K comparable] struct] *)
Record item : Type := Item {
  Prev : ptr;
  Next : ptr;
  Key : K;
  Expires : Z
}.

(** [type valuePtr[K comparable, V any] struct] *)
Record valuePtr : Type := ValuePtr {
  Value : V;
  Ptr : ptr
}.

(** [type Cache[K comparable, V any] struct].  [heap] and [next] are the
    Go heap restricted to queue nodes and its allocation counter;
    [timer] is the deadline of the outstanding wait, if any. *)
Record Cache : Type := MkCache {
  cache : gmap K valuePtr;
  head : ptr;
  tail : ptr;
  heap : gmap nat item;
  next : addr;
  timer : option Z
}.

Definition with_cache (m : gmap K valuePtr) (c : Cache) : Cache :=
  MkCache m (head c) (tail c) (heap c) (next c) (timer c).
Definition with_head (p : ptr) (c : Cache) : Cache :=
  MkCache (cache c) p (tail c) (heap c) (next c) (timer c).
Definition with_tail (p : ptr) (c : Cache) : Cache :=
  MkCache (cache c) (head c) p (heap c) (next c) (timer c).
Definition with_heap (h : gmap nat item) (c : Cache) : Cache :=
  MkCache (cache c) (head c) (tail c) h (next c) (timer c).
Definition with_timer (t : option Z) (c : Cache) : Cache :=
  MkCache (cache c) (head c) (tail c) (heap c) (next c) t.

Definition upd_Prev (p : ptr) (it : item) : item :=
  Item p (Next it) (Key it) (Expires it).
Definition upd_Next (p : ptr) (it : item) : item :=
  Item (Prev it) p (Key it) (Expires it).
Definition upd_Expires (e : Z) (it : item) : item :=
  Item (Prev it) (Next it) (Key it) e.

(** ** The monad of method bodies *)

Inductive outcome (A : Type) : Type :=
| Done (a : A) (c : Cache)
| Panic (c : Cache)
| Abort.
Arguments Done {A} a c.
Arguments Panic {A} c.
Arguments Abort {A}.

Definition M (A : Type) : Type := Cache → outcome A.

Definition ret {A} (a : A) : M A := λ c, Done a c.

Definition bind {A B} (m : M A) (f : A → M B) : M B := λ c,
  match m c with
  | Done a c' => f a c'
  | Panic c' => Panic c'
  | Abort => Abort
  end.

Local Notation "x <- m ;; k" := (bind m (λ x, k))
  (at level 100, m at next level, right associativity).
Local Notation "m ;; k" := (bind m (λ _, k))
  (at level 100, right associativity).

Definition abort {A} : M A := λ _, Abort.

(** Reading and writing the fields of the receiver [c]. *)
Definition get_head : M ptr := λ c, Done (head c) c.
Definition get_tail : M ptr := λ c, Done (tail c) c.
Definition get_next : M nat := λ c, Done (next c) c.
Definition set_head (p : ptr) : M unit := λ c, Done tt (with_head p c).
Definition set_tail (p : ptr) : M unit := λ c, Done tt (with_tail p c).
Definition set_timer (t : option Z) : M unit := λ c, Done tt (with_timer t c).

(** [p.f] for a node pointer [p]: a [nil] pointer faults. *)
Definition load (p : ptr) : M item := λ c,
  match p with
  | None => Panic c
  | Some a =>
      match heap c !! a with
      | Some it => Done it c
      | None => Abort
      end
  end.

(** [p.f = x] *)
Definition store (p : ptr) (f : item → item) : M unit := λ c,
  match p with
  | None => Panic c
  | Some a =>
      match heap c !! a with
      | Some it => Done tt (with_heap (<[a := f it]> (heap c)) c)
      | None => Abort
      end
  end.

Definition get_Prev (p : ptr) : M ptr := it <- load p ;; ret (Prev it).
Definition get_Next (p : ptr) : M ptr := it <- load p ;; ret (Next it).
Definition get_Key (p : ptr) : M K := it <- load p ;; ret (Key it).
Definition get_Expires (p : ptr) : M Z := it <- load p ;; ret (Expires it).
Definition set_Prev (p v : ptr) : M unit := store p (upd_Prev v).
Definition set_Next (p v : ptr) : M unit := store p (upd_Next v).
Definition set_Expires (p : ptr) (e : Z) : M unit := store p (upd_Expires e).

(** [&item[K]{Key: key, Expires: expires}] *)
Definition new_item (key : K) (expires : Z) : M ptr := λ c,
  Done (Some (next c))
       (MkCache (cache c) (head c) (tail c)
                (<[next c := Item None None key expires]> (heap c))
                (S (next c)) (timer c)).

(** [value, ok := c.cache[key]]: an absent key yields the zero
    [valuePtr]. *)
Definition map_lookup (key : K) : M (valuePtr * bool) := λ c,
  match cache c !! key with
  | Some v => Done (v, true) c
  | None => Done (ValuePtr zero None, false) c
  end.

(** [c.cache[key] = v] *)
Definition map_store (key : K) (v : valuePtr) : M unit := λ c,
  Done tt (with_cache (<[key := v]> (cache c)) c).

(** [delete(c.cache, key)] *)
Definition map_delete (key : K) : M unit := λ c,
  Done tt (with_cache (base.delete key (cache c)) c).

(** ** Queue primitives *)

(** [func (c *Cache[K, V]) remove(n *item[K]) (r *item[K])] *)
Definition remove (n : ptr) : M ptr :=
  np <- get_Prev n ;;
  (match np with
   | None => nn <- get_Next n ;; set_head nn
   | Some _ => nn <- get_Next n ;; set_Next np nn
   end) ;;
  nn <- get_Next n ;;
  r <- (match nn with
        | None => np <- get_Prev n ;; set_tail np ;; ret np
        | Some _ => np <- get_Prev n ;; set_Prev nn np ;; ret nn
        end) ;;
  set_Prev n None ;;
  set_Next n None ;;
  ret r.

(** [func (c *Cache[K, V]) insertBefore(n, p *item[K])] *)
Definition insertBefore (n p : ptr) : M unit :=
  pp <- get_Prev p ;;
  (match pp with
   | None => set_head n
   | Some _ => set_Next pp n
   end) ;;
  pp <- get_Prev p ;;
  set_Prev n pp ;;
  set_Next n p ;;
  set_Prev p n.

(** [func (c *Cache[K, V]) insertAfter(n, p *item[K])] *)
Definition insertAfter (n p : ptr) : M unit :=
  pn <- get_Next p ;;
  (match pn with
   | None => set_tail n
   | Some _ => set_Prev pn n
   end) ;;
  pn <- get_Next p ;;
  set_Next n pn ;;
  set_Prev n p ;;
  set_Next p n.

(** [func (c *Cache[K, V]) setTimer()].  The source first offers a value
    on [stop] without blocking, then reads [c.head.Expires] and starts a
    [ticker] goroutine that waits until then.  The offer is taken only by
    a [ticker] that is already parked in its [select]; one that has been
    started but has not reached its [select] yet misses it, and its wait
    stays outstanding beside the new one.  The single field [timer]
    cannot hold two waits: the embedding follows the schedule in which
    every started [ticker] is parked before the next call, so the offer
    is taken and [timer] is the wait started last.  Statements about a
    new value of [timer] hold for that schedule only; that a method
    leaves [timer] untouched, because it does not call [setTimer], holds
    for every schedule. *)
Definition setTimer : M unit :=
  set_timer None ;;
  h <- get_head ;;
  e <- get_Expires h ;;
  set_timer (Some e).

(** [func (c *Cache[K, V]) delete(key K) bool] *)
Definition delete (key : K) : M bool :=
  h <- get_head ;;
  match h with
  | None => ret false
  | Some _ =>
      r <- map_lookup key ;;
      if snd r then
        remove (Ptr (fst r)) ;;
        map_delete key ;;
        ret true
      else ret false
  end.

(** ** Public methods *)

(** [func New[K comparable, V any]() *Cache[K, V]] *)
Definition New : Cache := MkCache ∅ None None ∅ 0 None.

(** The scan of [Set]: [for n := c.tail; ; n = n.Prev].  The loops of
    the source have no bound; here they take a number of turns [fuel],
    for which the callers pass the allocation counter: a queue without
    cycles has at most that many nodes. *)
Fixpoint Set_scan (fuel : nat) (i n : ptr) : M unit :=
  match fuel with
  | O => abort
  | S fuel' =>
      ne <- get_Expires n ;;
      ie <- get_Expires i ;;
      if (ne <? ie)%Z then insertAfter i n
      else
        np <- get_Prev n ;;
        match np with
        | None => insertBefore i n ;; setTimer
        | Some _ => Set_scan fuel' i np
        end
  end.

(** [func (c *Cache[K, V]) Set(key K, value V, ttl time.Duration)] *)
Definition Set_ (now : Z) (key : K) (value : V) (ttl : Z) : M unit :=
  r <- map_lookup key ;;
  (if snd r then delete key ;; ret tt else ret tt) ;;
  i <- new_item key (now + ttl)%Z ;;
  map_store key (ValuePtr value i) ;;
  h <- get_head ;;
  match h with
  | None => set_head i ;; set_tail i ;; setTimer
  | Some _ =>
      t <- get_tail ;;
      fuel <- get_next ;;
      Set_scan fuel i t
  end.

(** [func (c *Cache[K, V]) Get(key K) (V, bool)] *)
Definition Get (key : K) : M (V * bool) :=
  r <- map_lookup key ;;
  ret (Value (fst r), snd r).

(** [func (c *Cache[K, V]) Swap(key K, value V) (V, bool)] *)
Definition Swap (key : K) (value : V) : M (V * bool) :=
  r <- map_lookup key ;;
  if snd r then
    let oldValue := Value (fst r) in
    map_store key (ValuePtr value (Ptr (fst r))) ;;
    ret (oldValue, true)
  else ret (value, false).

(** [func (c *Cache[K, V]) Delete(key K) (ok bool)] *)
Definition Delete (key : K) : M bool :=
  h <- get_head ;;
  timerResetNeeded <-
    (match h with
     | None => ret false
     | Some _ => hk <- get_Key h ;; ret (bool_decide (hk = key))
     end) ;;
  ok <- delete key ;;
  h <- get_head ;;
  (match h with
   | None => ret tt
   | Some _ => if timerResetNeeded : bool then setTimer else ret tt
   end) ;;
  ret ok.

(** [func (c *Cache[K, V]) GetAndDelete(key K) (V, bool)] *)
Definition GetAndDelete (key : K) : M (V * bool) :=
  r <- map_lookup key ;;
  if snd r then
    delete key ;;
    ret (Value (fst r), true)
  else ret (Value (fst r), false).

(** [func (c *Cache[K, V]) Update(key K, value V) bool].  The assignment
    [v.Value = value] writes to the local copy [v] of the map element;
    nothing is stored back into [c.cache]. *)
Definition Update (key : K) (value : V) : M bool :=
  r <- map_lookup key ;;
  if snd r then
    let v := ValuePtr value (Ptr (fst r)) in
    ret true
  else ret false.

(** The two scans of [Refresh]. *)
Fixpoint Refresh_tailward (fuel : nat) (expires : Z) (i n : ptr) : M unit :=
  match fuel with
  | O => abort
  | S fuel' =>
      ne <- get_Expires n ;;
      if (expires <? ne)%Z then insertBefore i n
      else
        nn <- get_Next n ;;
        match nn with
        | None => insertAfter i n
        | Some _ => Refresh_tailward fuel' expires i nn
        end
  end.

Fixpoint Refresh_headward (fuel : nat) (expires : Z) (i n : ptr) : M unit :=
  match fuel with
  | O => abort
  | S fuel' =>
      ne <- get_Expires n ;;
      if (ne <? expires)%Z then insertAfter i n
      else
        np <- get_Prev n ;;
        match np with
        | None => insertBefore i n
        | Some _ => Refresh_headward fuel' expires i np
        end
  end.

(** [func (c *Cache[K, V]) Refresh(key K, ttl time.Duration) bool] *)
Definition Refresh (now : Z) (key : K) (ttl : Z) : M bool :=
  r <- map_lookup key ;;
  if snd r then
    let v := fst r in
    let expires := (now + ttl)%Z in
    h <- get_head ;;
    hk <- get_Key h ;;
    let wasFirst := bool_decide (hk = key) in
    start <- remove (Ptr v) ;;
    old <- get_Expires (Ptr v) ;;
    fuel <- get_next ;;
    (if (old <? expires)%Z
     then Refresh_tailward fuel expires (Ptr v) start
     else Refresh_headward fuel expires (Ptr v) start) ;;
    set_Expires (Ptr v) expires ;;
    h <- get_head ;;
    hk <- get_Key h ;;
    (if wasFirst || bool_decide (hk = key) then setTimer else ret tt) ;;
    ret true
  else ret false.

(** The loop of [Evict]:
    [for evicted = 0; evicted < n && c.head != nil && c.delete(c.head.Key); evicted++].
    The counter stays between 0 and [n], so the machine integer never
    wraps and is an integer here. *)
Fixpoint Evict_loop (fuel : nat) (n evicted : Z) : M Z :=
  if (evicted <? n)%Z then
    h <- get_head ;;
    match h with
    | None => ret evicted
    | Some _ =>
        hk <- get_Key h ;;
        ok <- delete hk ;;
        if ok : bool then
          match fuel with
          | O => abort
          | S fuel' => Evict_loop fuel' n (evicted + 1)%Z
          end
        else ret evicted
    end
  else ret evicted.

(** [func (c *Cache[K, V]) Evict(n int) (evicted int)] *)
Definition Evict (n : Z) : M Z :=
  evicted <- Evict_loop (Z.to_nat n) n 0%Z ;;
  h <- get_head ;;
  (match h with
   | None => ret tt
   | Some _ => if (0 <? evicted)%Z then setTimer else ret tt
   end) ;;
  ret evicted.

(** The snapshot of [Range]: [for n := c.head; n != nil; n = n.Next]. *)
Fixpoint Range_keys (fuel : nat) (n : ptr) : M (list K) :=
  match n with
  | None => ret []
  | Some _ =>
      match fuel with
      | O => abort
      | S fuel' =>
          k <- get_Key n ;;
          nn <- get_Next n ;;
          ks <- Range_keys fuel' nn ;;
          ret (k :: ks)
      end
  end.

(** The visiting loop of [Range]: [for k := range keys].  The callback
    runs without the lock and may call any method, so it is a
    computation of its own; the result is the list of the calls made. *)
Fixpoint Range_loop (fn : K → V → M bool) (keys : list K) : M (list (K * V)) :=
  match keys with
  | [] => ret []
  | k :: ks =>
      r <- map_lookup k ;;
      let value := Value (fst r) in
      continue <- fn k value ;;
      if continue : bool then
        calls <- Range_loop fn ks ;;
        ret ((k, value) :: calls)
      else ret [(k, value)]
  end.

(** [func (c *Cache[K, V]) Range(fn func(K, V) bool)] *)
Definition Range (fn : K → V → M bool) : M (list (K * V)) :=
  fuel <- get_next ;;
  h <- get_head ;;
  keys <- Range_keys fuel h ;;
  Range_loop fn keys.

(** [func (c *Cache[K, V]) Len() int] *)
Definition Len : M nat := λ c, Done (size (cache c)) c.

(** [func (c *Cache[K, V]) ticker(t *time.Timer)], the part after the
    [select]: the timer has fired. *)
Definition ticker : M unit :=
  h <- get_head ;;
  (match h with
   | None => ret tt
   | Some _ =>
       hk <- get_Key h ;;
       map_delete hk ;;
       h <- get_head ;;
       remove h ;;
       ret tt
   end) ;;
  h <- get_head ;;
  match h with
  | None => ret tt
  | Some _ => setTimer
  end.

(** The clock reaches [now]: the outstanding wait, if its deadline has
    passed, ends and runs [ticker]. *)
Definition elapse (now : Z) : M unit := λ c,
  match timer c with
  | Some d => if (d <=? now)%Z then ticker (with_timer None c) else Done tt c
  | None => Done tt c
  end.

(** ** Sequences of calls *)

(** One call of a public method, or the passing of time up to [now]
    ([CElapse]), with the clock reading of the methods that use it. *)
Inductive call : Type :=
| CSet (now : Z) (key : K) (value : V) (ttl : Z)
| CGet (key : K)
| CSwap (key : K) (value : V)
| CDelete (key : K)
| CGetAndDelete (key : K)
| CUpdate (key : K) (value : V)
| CRefresh (now : Z) (key : K) (ttl : Z)
| CEvict (n : Z)
| CLen
| CElapse (now : Z).

Definition exec (o : call) : M unit :=
  match o with
  | CSet now key value ttl => Set_ now key value ttl
  | CGet key => Get key ;; ret tt
  | CSwap key value => Swap key value ;; ret tt
  | CDelete key => Delete key ;; ret tt
  | CGetAndDelete key => GetAndDelete key ;; ret tt
  | CUpdate key value => Update key value ;; ret tt
  | CRefresh now key ttl => Refresh now key ttl ;; ret tt
  | CEvict n => Evict n ;; ret tt
  | CLen => Len ;; ret tt
  | CElapse now => elapse now
  end.

Fixpoint run (ops : list call) : M unit :=
  match ops with
  | [] => ret tt
  | o :: ops' => exec o ;; run ops'
  end.

(** ** The queue as a list *)

(** A queue node as seen from outside: its address, key and expiration. *)
Record cell : Type := Cell {
  c_addr : addr;
  c_key : K;
  c_exp : Z
}.

(** The nodes met when following [Next] from [n], as [Range] and the
    scans do. *)
Fixpoint walk (fuel : nat) (h : gmap nat item) (n : ptr) : list cell :=
  match fuel, n with
  | S fuel', Some a =>
      match h !! a with
      | Some it => Cell a (Key it) (Expires it) :: walk fuel' h (Next it)
      | None => []
      end
  | _, _ => []
  end.

Definition queue (c : Cache) : list cell :=
  walk (next c) (heap c) (head c).

(** The scheduler is aligned when the outstanding wait targets the
    expiration of the head node. *)
Definition armed_for_head (c : Cache) : Prop :=
  match queue c with
  | [] => True
  | x :: _ => timer c = Some (c_exp x)
  end.

(** ** Representation invariant *)

Definition first_ptr (L : list cell) (q : ptr) : ptr :=
  match L with
  | [] => q
  | x :: _ => Some (c_addr x)
  end.

Fixpoint last_ptr (p : ptr) (L : list cell) : ptr :=
  match L with
  | [] => p
  | x :: L' => last_ptr (Some (c_addr x)) L'
  end.

(** [seg h p L q]: the nodes of [L] are linked in this order in [h], the
    first one has [Prev = p] and the last one has [Next = q]. *)
Fixpoint seg (h : gmap nat item) (p : ptr) (L : list cell) (q : ptr) : Prop :=
  match L with
  | [] => True
  | x :: L' =>
      h !! c_addr x = Some (Item p (first_ptr L' q) (c_key x) (c_exp x))
      ∧ seg h (Some (c_addr x)) L' q
  end.

(** A heap whose addresses are below the allocation counter. *)
Definition bounded (h : gmap nat item) (n : nat) : Prop :=
  ∀ a, is_Some (h !! a) → a < n.

(** [repr c L]: the queue of [c] is the doubly linked list [L]. *)
Definition repr (c : Cache) (L : list cell) : Prop :=
  seg (heap c) None L None
  ∧ NoDup (c_addr <$> L)
  ∧ head c = first_ptr L None
  ∧ tail c = last_ptr None L
  ∧ bounded (heap c) (next c).

(** [idx m L]: the map [m] and the queue [L] hold the same entries. *)
Definition idx (m : gmap K valuePtr) (L : list cell) : Prop :=
  size m = length L
  ∧ (∀ k vp, m !! k = Some vp →
       ∃ a e, Ptr vp = Some a ∧ Cell a k e ∈ L)
  ∧ (∀ x, x ∈ L →
       ∃ v, m !! c_key x = Some (ValuePtr v (Some (c_addr x)))).

(** Expirations do not decrease from head to tail. *)
Definition sorted (L : list cell) : Prop :=
  StronglySorted Z.le (c_exp <$> L).

Definition wf (c : Cache) : Prop :=
  ∃ L, repr c L ∧ idx (cache c) L ∧ sorted L.

(** The value [Range] hands to the callback for key [k] when the cache
    is [c]: [c.cache[k].Value], the zero value for an absent key. *)
Definition value_at (c : Cache) (k : K) : V :=
  match cache c !! k with
  | Some vp => Value vp
  | None => zero
  end.

(** The calls [Range] makes for the keys [ks] from the cache [c] on, when
    each callback returns: every key in turn with the value the map
    holds for it at that moment. *)
Fixpoint turns (fn : K → V → M bool) (ks : list K) (c : Cache) : list (K * V) :=
  match ks with
  | [] => []
  | k :: ks' =>
      (k, value_at c k)
      :: match fn k (value_at c k) c with
         | Done _ c1 => turns fn ks' c1
         | _ => []
         end
  end.

(** [continues fn ks c ck]: called in turn for the keys [ks] from the
    cache [c] on, each with the value the map holds at its turn, every
    callback returns [true]; they leave the cache [ck]. *)
Fixpoint continues (fn : K → V → M bool) (ks : list K) (c ck : Cache) : Prop :=
  match ks with
  | [] => ck = c
  | k :: ks' =>
      ∃ c1, fn k (value_at c k) c = Done true c1 ∧ continues fn ks' c1 ck
  end.

(** The calls [Range] makes over the pairs [l] when the callback answers
    [f k v]: every pair up to and including the first one for which the
    answer is [false]. *)
Fixpoint visited (f : K → V → bool) (l : list (K * V)) : list (K * V) :=
  match l with
  | [] => []
  | (k, v) :: l' => if f k v then (k, v) :: visited f l' else [(k, v)]
  end.

(** ** Tie order, as the specification words it *)



End Model.

Arguments Done {K _ _ V A} a c.
Arguments Panic {K _ _ V A} c.
Arguments Abort {K _ _ V A}.

Notation "x <- m ;; k" := (bind m (λ x, k))
  (at level 100, m at next level, right associativity).
Notation "m ;; k" := (bind m (λ _, k))
  (at level 100, right associativity).

(** ** Sample caches with integer keys and values *)

Open Scope Z_scope.

Definition state_after (ops : list (call (K:=Z) (V:=Z))) : Cache (K:=Z) (V:=Z) :=
  match run 0 ops New with
  | Done _ c => c
  | _ => New
  end.

(** [Set(1, 10, 100)] at time 0. *)
Definition one_entry : list (call (K:=Z) (V:=Z)) :=
  [CSet 0 1 10 100].

(** [Set(1, 10, 100); Set(2, 20, 200)] at time 0. *)
Definition two_entries : list (call (K:=Z) (V:=Z)) :=
  [CSet 0 1 10 100; CSet 0 2 20 200].

(** [Set(1, 10, 100); Set(2, 20, 200); Set(3, 30, 300)] at time 0. *)
Definition three_entries : list (call (K:=Z) (V:=Z)) :=
  [CSet 0 1 10 100; CSet 0 2 20 200; CSet 0 3 30 300].

(** A [Range] callback that deletes key 3 while it visits key 1. *)
Definition delete_later_key (k v : Z) : M (K:=Z) (V:=Z) bool :=
  if k =? 1 then Delete 0 3 ;; ret true else ret true.

(** Three entries, then a [Refresh] of the head and a [Delete]. *)
Definition mixed_calls : list (call (K:=Z) (V:=Z)) :=
  three_entries ++ [CRefresh 5 1 350; CDelete 2].

(** Two entries, then [GetAndDelete] of the head: node 0 stays allocated
    but is no longer in the queue. *)
Definition head_taken : list (call (K:=Z) (V:=Z)) :=
  two_entries ++ [CGetAndDelete 1].

Close Scope Z_scope.

(** * Proofs *)

Section Proofs.

Context {K : Type} `{Countable K} {V : Type} (zero : V).

Implicit Types c : Cache (K:=K) (V:=V).
Implicit Types L P Q : list (cell (K:=K)).
Implicit Types x y z : cell (K:=K).
Implicit Types h : gmap nat (item (K:=K)).
Implicit Types p q : option nat.

(** ** Segments *)

Lemma first_ptr_app L1 L2 q :
  first_ptr (L1 ++ L2) q = first_ptr L1 (first_ptr L2 q).
Proof. by destruct L1. Qed.

Lemma last_ptr_app p L1 L2 :
  last_ptr p (L1 ++ L2) = last_ptr (last_ptr p L1) L2.
Proof. revert p. induction L1 as [|x L1 IH]; intros p; simpl; [done|apply IH]. Qed.

Lemma last_ptr_snoc p L x : last_ptr p (L ++ [x]) = Some (c_addr x).
Proof. by rewrite last_ptr_app. Qed.

Lemma seg_app h p L1 L2 q :
  seg h p (L1 ++ L2) q ↔
  seg h p L1 (first_ptr L2 q) ∧ seg h (last_ptr p L1) L2 q.
Proof.
  revert p. induction L1 as [|x L1 IH]; intros p; simpl.
  - tauto.
  - rewrite IH, first_ptr_app. tauto.
Qed.

Lemma seg_lookup h p L1 x L2 q :
  seg h p (L1 ++ x :: L2) q →
  h !! c_addr x =
    Some (Item (last_ptr p L1) (first_ptr L2 q) (c_key x) (c_exp x)).
Proof. rewrite seg_app. simpl. tauto. Qed.

Lemma seg_frame h p L q a it :
  a ∉ c_addr <$> L → seg h p L q → seg (<[a := it]> h) p L q.
Proof.
  revert p. induction L as [|x L IH]; intros p Ha; simpl; [done|].
  rewrite fmap_cons, not_elem_of_cons in Ha. destruct Ha as [Hne Ha].
  intros [Hx Hs]. split; [by rewrite lookup_insert_ne|by apply IH].
Qed.

Lemma seg_elem h p L q x :
  seg h p L q → x ∈ L →
  ∃ pp nn, h !! c_addr x = Some (Item pp nn (c_key x) (c_exp x)).
Proof.
  intros Hs Hx. apply list_elem_of_split in Hx as (L1 & L2 & ->).
  apply seg_lookup in Hs. eauto.
Qed.

Lemma bounded_insert h n a it :
  bounded h n → a < n → bounded (<[a := it]> h) n.
Proof.
  intros Hb Ha b. destruct (decide (a = b)) as [->|Hne]; [done|].
  rewrite lookup_insert_ne by done. apply Hb.
Qed.

Lemma bounded_lookup h n a it : bounded h n → h !! a = Some it → a < n.
Proof. intros Hb Ha. apply Hb. by rewrite Ha. Qed.

(** ** Evaluating method bodies *)

Ltac heap_rw :=
  repeat first
    [ rewrite lookup_insert_eq
    | rewrite lookup_insert_ne by congruence
    | match goal with
      | Hl : ?h !! ?a = Some _ |- context [?h !! ?a] => rewrite Hl
      end ].

Ltac eval_m :=
  unfold remove, insertBefore, insertAfter, setTimer, get_Prev, get_Next,
    get_Key, get_Expires, set_Prev, set_Next, set_Expires, get_head,
    get_tail, get_next, set_head, set_tail, set_timer, load, store, bind,
    ret, with_heap, with_head, with_tail, with_timer, with_cache,
    upd_Prev, upd_Next, upd_Expires; simpl;
  repeat (progress (heap_rw; simpl)).

Lemma NoDup_addrs_split L1 x L2 :
  NoDup (c_addr <$> (L1 ++ x :: L2)) ↔
  NoDup (c_addr <$> (L1 ++ L2))
  ∧ (c_addr x ∉ (c_addr <$> L1)) ∧ (c_addr x ∉ (c_addr <$> L2)).
Proof.
  rewrite !fmap_app, fmap_cons, !NoDup_app, NoDup_cons. set_solver.
Qed.

Ltac keep_nodup :=
  repeat match goal with
  | Hk : ?T |- _ =>
      lazymatch T with
      | NoDup _ => fail
      | _ ∉ _ => fail
      | _ ≠ _ => fail
      | _ => clear Hk
      end
  end.

Ltac refold_fmap :=
  repeat match goal with
  | Hx : context [list_fmap _ _ c_addr ?L] |- _ =>
      change (list_fmap _ _ c_addr L) with (c_addr <$> L) in Hx
  | |- context [list_fmap _ _ c_addr ?L] =>
      change (list_fmap _ _ c_addr L) with (c_addr <$> L)
  end.

Ltac abstract_addrs :=
  repeat match goal with
  | |- context [c_addr <$> ?L] =>
      let l := fresh "l" in let E := fresh "E" in
      remember (c_addr <$> L) as l eqn:E; clear E
  | Hx : context [c_addr <$> ?L] |- _ =>
      let l := fresh "l" in let E := fresh "E" in
      remember (c_addr <$> L) as l eqn:E; clear E
  end.

(** Membership and distinctness of node addresses. *)
Ltac notin_tac :=
  keep_nodup; refold_fmap;
  rewrite ?fmap_app, ?fmap_cons, ?fmap_nil, ?NoDup_app, ?NoDup_cons,
    ?not_elem_of_app, ?not_elem_of_cons in *;
  abstract_addrs; set_solver.

Ltac seg_tac :=
  rewrite ?seg_app; simpl; repeat split; heap_rw;
  rewrite ?last_ptr_app, ?first_ptr_app; simpl; try done;
  repeat (apply seg_frame; [notin_tac|]); try done.

Ltac ends_tac :=
  rewrite ?first_ptr_app, ?last_ptr_app in *; simpl in *; congruence.

Ltac bounded_tac := repeat (apply bounded_insert; [|done]); done.

Ltac repr_tac :=
  unfold repr; simpl;
  split; [seg_tac|split; [notin_tac|split; [ends_tac|split; [ends_tac|bounded_tac]]]].

Lemma insertAfter_repr c L1 y L2 i pi ni k e :
  repr c (L1 ++ y :: L2) →
  heap c !! i = Some (Item pi ni k e) →
  i ∉ (c_addr <$> (L1 ++ y :: L2)) →
  ∃ c', insertAfter (Some i) (Some (c_addr y)) c = Done tt c'
        ∧ repr c' (L1 ++ y :: Cell i k e :: L2)
        ∧ cache c' = cache c ∧ next c' = next c ∧ timer c' = timer c.
Proof.
  intros (Hs & Hnd & Hh & Ht & Hb) Hi Hni.
  pose proof (seg_lookup _ _ _ _ _ _ Hs) as Hy.
  assert (i < next c) as Hlt by (by eapply bounded_lookup).
  assert (c_addr y < next c) as Hlty by (by eapply bounded_lookup).
  apply seg_app in Hs as [Hs1 Hs2]. simpl in Hs2. destruct Hs2 as [_ Hs2].
  assert (i ≠ c_addr y) by notin_tac.
  destruct L2 as [|z L2]; simpl in *.
  - eexists. split; [eval_m; reflexivity|].
    split; [repr_tac|done].
  - destruct Hs2 as [Hz Hs2].
    assert (c_addr z < next c) as Hltz by (by eapply bounded_lookup).
    assert (i ≠ c_addr z) by notin_tac.
    assert (c_addr y ≠ c_addr z) by notin_tac.
    eexists. split; [eval_m; reflexivity|].
    split; [repr_tac|done].
Qed.

Lemma insertBefore_repr c L1 y L2 i pi ni k e :
  repr c (L1 ++ y :: L2) →
  heap c !! i = Some (Item pi ni k e) →
  i ∉ (c_addr <$> (L1 ++ y :: L2)) →
  ∃ c', insertBefore (Some i) (Some (c_addr y)) c = Done tt c'
        ∧ repr c' (L1 ++ Cell i k e :: y :: L2)
        ∧ cache c' = cache c ∧ next c' = next c ∧ timer c' = timer c.
Proof.
  intros (Hs & Hnd & Hh & Ht & Hb) Hi Hni.
  pose proof (seg_lookup _ _ _ _ _ _ Hs) as Hy.
  assert (i < next c) as Hlt by (by eapply bounded_lookup).
  assert (c_addr y < next c) as Hlty by (by eapply bounded_lookup).
  assert (i ≠ c_addr y) by notin_tac.
  destruct L1 as [|w L1 _] using rev_ind.
  - simpl in Hs, Hy. destruct Hs as [_ Hs].
    eexists. split; [eval_m; reflexivity|].
    split; [repr_tac|done].
  - rewrite last_ptr_snoc in Hy.
    rewrite <- app_assoc in Hs. pose proof (seg_lookup _ _ _ _ _ _ Hs) as Hw.
    simpl in Hw.
    assert (c_addr w < next c) as Hltw by (by eapply bounded_lookup).
    assert (i ≠ c_addr w) by notin_tac.
    assert (c_addr w ≠ c_addr y) by notin_tac.
    apply seg_app in Hs as [Hs1 Hs2]. simpl in Hs2.
    destruct Hs2 as (_ & _ & Hs2).
    eexists. split; [eval_m; reflexivity|].
    split; [repr_tac|done].
Qed.

Lemma remove_repr c L1 x L2 :
  repr c (L1 ++ x :: L2) →
  ∃ c', remove (Some (c_addr x)) c
          = Done (first_ptr L2 (last_ptr None L1)) c'
        ∧ repr c' (L1 ++ L2)
        ∧ heap c' !! c_addr x = Some (Item None None (c_key x) (c_exp x))
        ∧ cache c' = cache c ∧ next c' = next c ∧ timer c' = timer c.
Proof.
  intros (Hs & Hnd & Hh & Ht & Hb).
  pose proof (seg_lookup _ _ _ _ _ _ Hs) as Hx.
  assert (c_addr x < next c) as Hltx by (by eapply bounded_lookup).
  destruct L1 as [|w L1 _] using rev_ind; destruct L2 as [|z L2].
  - simpl in Hx.
    eexists. split; [eval_m; reflexivity|].
    split; [repr_tac|]. simpl. by heap_rw.
  - simpl in Hs, Hx. destruct Hs as (_ & Hz & Hs).
    assert (c_addr z < next c) as Hltz by (by eapply bounded_lookup).
    assert (c_addr x ≠ c_addr z) by notin_tac.
    eexists. split; [eval_m; reflexivity|].
    split; [repr_tac|]. simpl. by heap_rw.
  - rewrite last_ptr_snoc in Hx. simpl in Hx.
    rewrite <- app_assoc in Hs. pose proof (seg_lookup _ _ _ _ _ _ Hs) as Hw.
    simpl in Hw.
    assert (c_addr w < next c) as Hltw by (by eapply bounded_lookup).
    assert (c_addr w ≠ c_addr x) by notin_tac.
    apply seg_app in Hs as [Hs1 _].
    eexists. split; [eval_m; rewrite last_ptr_snoc; reflexivity|].
    split; [repr_tac|]. simpl. by heap_rw.
  - rewrite last_ptr_snoc in Hx. simpl in Hx.
    rewrite <- app_assoc in Hs. pose proof (seg_lookup _ _ _ _ _ _ Hs) as Hw.
    simpl in Hw.
    apply seg_app in Hs as [Hs1 Hs2]. simpl in Hs2.
    destruct Hs2 as (_ & _ & Hz & Hs2).
    assert (c_addr w < next c) as Hltw by (by eapply bounded_lookup).
    assert (c_addr z < next c) as Hltz by (by eapply bounded_lookup).
    assert (c_addr w ≠ c_addr x) by notin_tac.
    assert (c_addr x ≠ c_addr z) by notin_tac.
    assert (c_addr w ≠ c_addr z) by notin_tac.
    eexists. split; [eval_m; reflexivity|].
    split; [repr_tac|]. simpl. by heap_rw.
Qed.

Lemma set_Expires_repr c L1 x L2 e :
  repr c (L1 ++ x :: L2) →
  ∃ c', set_Expires (Some (c_addr x)) e c = Done tt c'
        ∧ repr c' (L1 ++ Cell (c_addr x) (c_key x) e :: L2)
        ∧ cache c' = cache c ∧ next c' = next c ∧ timer c' = timer c.
Proof.
  intros (Hs & Hnd & Hh & Ht & Hb).
  pose proof (seg_lookup _ _ _ _ _ _ Hs) as Hx.
  assert (c_addr x < next c) as Hltx by (by eapply bounded_lookup).
  apply seg_app in Hs as [Hs1 Hs2]. simpl in Hs2. destruct Hs2 as [_ Hs2].
  eexists. split; [eval_m; reflexivity|].
  split; [repr_tac|done].
Qed.

Ltac eval_get :=
  unfold get_Prev, get_Next, get_Key, get_Expires, get_head, get_tail,
    get_next, set_timer, load, bind, ret; simpl;
  repeat (progress (heap_rw; simpl)).

Lemma repr_head_lookup c x L :
  repr c (x :: L) →
  head c = Some (c_addr x)
  ∧ heap c !! c_addr x = Some (Item None (first_ptr L None) (c_key x) (c_exp x)).
Proof. intros (Hs & _ & Hh & _). simpl in Hs. tauto. Qed.

Lemma setTimer_repr c x L :
  repr c (x :: L) →
  setTimer c = Done tt (with_timer (Some (c_exp x)) c).
Proof.
  intros Hr. apply repr_head_lookup in Hr as [Hh Hx].
  unfold setTimer, set_timer, get_head, get_Expires, load, bind, ret.
  simpl. rewrite Hh, Hx. done.
Qed.

Lemma Set_scan_repr A : ∀ y C fuel c i pi ni k e,
  repr c (A ++ y :: C) →
  heap c !! i = Some (Item pi ni k e) →
  i ∉ (c_addr <$> (A ++ y :: C)) →
  length A < fuel →
  ∃ c' P Q,
    Set_scan fuel (Some i) (Some (c_addr y)) c = Done tt c'
    ∧ P ++ Q = A ++ [y]
    ∧ repr c' (P ++ Cell i k e :: Q ++ C)
    ∧ Forall (λ x, (e ≤ c_exp x)%Z) Q
    ∧ (P = [] ∨ ∃ P' w, P = P' ++ [w] ∧ (c_exp w < e)%Z)
    ∧ cache c' = cache c ∧ next c' = next c
    ∧ timer c' = (if P is [] then Some e else timer c).
Proof.
  induction A as [|w A IH] using rev_ind;
    intros y C fuel c i pi ni k e Hr Hi Hni Hf;
    (destruct fuel as [|fuel]; [lia|]);
    pose proof Hr as (Hs & _); pose proof (seg_lookup _ _ _ _ _ _ Hs) as Hy;
    assert (i ≠ c_addr y) by notin_tac;
    simpl; eval_get; destruct (Z.ltb_spec (c_exp y) e) as [Hlt|Hge].
  - destruct (insertAfter_repr _ _ _ _ _ _ _ _ _ Hr Hi Hni)
      as (c' & -> & Hr' & ? & ? & ?).
    exists c', [y], []. simpl. split_and!; try done.
    right. exists [], y. done.
  - simpl in Hy. rewrite Hy. simpl.
    destruct (insertBefore_repr _ _ _ _ _ _ _ _ _ Hr Hi Hni)
      as (c' & -> & Hr' & ? & ? & ?).
    simpl in Hr'. rewrite (setTimer_repr _ _ _ Hr'). simpl.
    exists (with_timer (Some e) c'), [], [y]. simpl.
    split_and!; try done; [by apply Forall_singleton|by left].
  - destruct (insertAfter_repr _ _ _ _ _ _ _ _ _ Hr Hi Hni)
      as (c' & -> & Hr' & ? & ? & ?).
    exists c', ((A ++ [w]) ++ [y]), []. simpl.
    rewrite <- !app_assoc in *. simpl in *.
    split_and!; try done.
    + right. exists (A ++ [w]), y. by rewrite <- app_assoc.
    + destruct A; done.
  - rewrite last_ptr_snoc in Hy. rewrite Hy. simpl.
    rewrite <- app_assoc in Hr, Hni. simpl in Hr, Hni.
    rewrite length_app in Hf. simpl in Hf.
    destruct (IH w (y :: C) fuel c i pi ni k e Hr Hi Hni ltac:(lia))
      as (c' & P & Q & -> & HPQ & Hr' & HQ & HP & ? & ? & ?).
    exists c', P, (Q ++ [y]). rewrite <- !app_assoc. simpl.
    split_and!; try done.
    + by rewrite app_assoc, HPQ, <- app_assoc.
    + apply Forall_app. split; [done|]. apply Forall_singleton. lia.
Qed.

Lemma Refresh_headward_repr A : ∀ y C fuel c i pi ni k e expires,
  repr c (A ++ y :: C) →
  heap c !! i = Some (Item pi ni k e) →
  i ∉ (c_addr <$> (A ++ y :: C)) →
  length A < fuel →
  ∃ c' P Q,
    Refresh_headward fuel expires (Some i) (Some (c_addr y)) c = Done tt c'
    ∧ P ++ Q = A ++ [y]
    ∧ repr c' (P ++ Cell i k e :: Q ++ C)
    ∧ Forall (λ x, (expires ≤ c_exp x)%Z) Q
    ∧ (P = [] ∨ ∃ P' w, P = P' ++ [w] ∧ (c_exp w < expires)%Z)
    ∧ cache c' = cache c ∧ next c' = next c ∧ timer c' = timer c.
Proof.
  induction A as [|w A IH] using rev_ind;
    intros y C fuel c i pi ni k e expires Hr Hi Hni Hf;
    (destruct fuel as [|fuel]; [lia|]);
    pose proof Hr as (Hs & _); pose proof (seg_lookup _ _ _ _ _ _ Hs) as Hy;
    assert (i ≠ c_addr y) by notin_tac;
    simpl; eval_get; destruct (Z.ltb_spec (c_exp y) expires) as [Hlt|Hge].
  - destruct (insertAfter_repr _ _ _ _ _ _ _ _ _ Hr Hi Hni)
      as (c' & -> & Hr' & ? & ? & ?).
    exists c', [y], []. simpl. split_and!; try done.
    right. exists [], y. done.
  - simpl in Hy. rewrite Hy. simpl.
    destruct (insertBefore_repr _ _ _ _ _ _ _ _ _ Hr Hi Hni)
      as (c' & -> & Hr' & ? & ? & ?).
    exists c', [], [y]. simpl.
    split_and!; try done; [by apply Forall_singleton|by left].
  - destruct (insertAfter_repr _ _ _ _ _ _ _ _ _ Hr Hi Hni)
      as (c' & -> & Hr' & ? & ? & ?).
    exists c', ((A ++ [w]) ++ [y]), []. simpl.
    rewrite <- !app_assoc in *. simpl in *.
    split_and!; try done.
    right. exists (A ++ [w]), y. by rewrite <- app_assoc.
  - rewrite last_ptr_snoc in Hy. rewrite Hy. simpl.
    rewrite <- app_assoc in Hr, Hni. simpl in Hr, Hni.
    rewrite length_app in Hf. simpl in Hf.
    destruct (IH w (y :: C) fuel c i pi ni k e expires Hr Hi Hni ltac:(lia))
      as (c' & P & Q & -> & HPQ & Hr' & HQ & HP & ? & ? & ?).
    exists c', P, (Q ++ [y]). rewrite <- !app_assoc. simpl.
    split_and!; try done.
    + by rewrite app_assoc, HPQ, <- app_assoc.
    + apply Forall_app. split; [done|]. apply Forall_singleton. lia.
Qed.

Lemma Refresh_tailward_repr C : ∀ A y fuel c i pi ni k e expires,
  repr c (A ++ y :: C) →
  heap c !! i = Some (Item pi ni k e) →
  i ∉ (c_addr <$> (A ++ y :: C)) →
  length C < fuel →
  ∃ c' P Q,
    Refresh_tailward fuel expires (Some i) (Some (c_addr y)) c = Done tt c'
    ∧ P ++ Q = y :: C
    ∧ repr c' (A ++ P ++ Cell i k e :: Q)
    ∧ Forall (λ x, (c_exp x ≤ expires)%Z) P
    ∧ (Q = [] ∨ ∃ z Q', Q = z :: Q' ∧ (expires < c_exp z)%Z)
    ∧ cache c' = cache c ∧ next c' = next c ∧ timer c' = timer c.
Proof.
  induction C as [|z C IH];
    intros A y fuel c i pi ni k e expires Hr Hi Hni Hf;
    (destruct fuel as [|fuel]; [simpl in Hf; lia|]);
    pose proof Hr as (Hs & _); pose proof (seg_lookup _ _ _ _ _ _ Hs) as Hy;
    assert (i ≠ c_addr y) by notin_tac;
    simpl; eval_get; destruct (Z.ltb_spec expires (c_exp y)) as [Hlt|Hge].
  - destruct (insertBefore_repr _ _ _ _ _ _ _ _ _ Hr Hi Hni)
      as (c' & -> & Hr' & ? & ? & ?).
    exists c', [], [y]. simpl. split_and!; try done.
    right. by exists y, [].
  - simpl in Hy. rewrite Hy. simpl.
    destruct (insertAfter_repr _ _ _ _ _ _ _ _ _ Hr Hi Hni)
      as (c' & -> & Hr' & ? & ? & ?).
    exists c', [y], []. simpl.
    split_and!; try done; [by apply Forall_singleton|by left].
  - destruct (insertBefore_repr _ _ _ _ _ _ _ _ _ Hr Hi Hni)
      as (c' & -> & Hr' & ? & ? & ?).
    exists c', [], (y :: z :: C). simpl. split_and!; try done.
    right. by exists y, (z :: C).
  - simpl in Hy. rewrite Hy. simpl. simpl in Hf.
    assert (A ++ y :: z :: C = (A ++ [y]) ++ z :: C) as HE
      by (by rewrite <- app_assoc).
    rewrite HE in Hr, Hni.
    destruct (IH (A ++ [y]) z fuel c i pi ni k e expires Hr Hi Hni ltac:(lia))
      as (c' & P & Q & -> & HPQ & Hr' & HP & HQ & ? & ? & ?).
    exists c', (y :: P), Q. rewrite <- app_assoc in Hr'. simpl in *.
    split_and!; try done.
    + by rewrite HPQ.
    + apply Forall_cons. split; [lia|done].
Qed.

(** ** The index *)

Implicit Types m : gmap K (valuePtr (V:=V)).

Lemma idx_key_addr m L x y :
  idx m L → x ∈ L → y ∈ L → c_key x = c_key y → c_addr x = c_addr y.
Proof.
  intros (_ & _ & Hq) Hx Hy Hk.
  destruct (Hq x Hx) as [v Hv]. destruct (Hq y Hy) as [v' Hv'].
  rewrite Hk in Hv. congruence.
Qed.

Lemma idx_find m L k vp :
  idx m L → m !! k = Some vp →
  ∃ L1 x L2, L = L1 ++ x :: L2 ∧ c_key x = k ∧ Ptr vp = Some (c_addr x).
Proof.
  intros (_ & Hm & _) Hk. destruct (Hm k vp Hk) as (a & e & Hp & Hin).
  apply list_elem_of_split in Hin as (L1 & L2 & ->).
  by exists L1, (Cell a k e), L2.
Qed.

Lemma idx_absent m L k x : idx m L → m !! k = None → x ∈ L → c_key x ≠ k.
Proof.
  intros (_ & _ & Hq) Hk Hx Hkx. subst k.
  destruct (Hq x Hx) as [v Hv]. congruence.
Qed.

Lemma idx_delete m L1 x L2 :
  idx m (L1 ++ x :: L2) →
  NoDup (c_addr <$> (L1 ++ x :: L2)) →
  idx (base.delete (c_key x) m) (L1 ++ L2).
Proof.
  intros Hi Hnd. pose proof Hi as (Hsz & Hm & Hq).
  assert (x ∈ L1 ++ x :: L2) as Hx by set_solver.
  assert (∀ y, y ∈ L1 ++ L2 → c_key y ≠ c_key x) as Hne.
  { intros y Hy Hk.
    assert (y ∈ L1 ++ x :: L2) as Hy' by set_solver.
    pose proof (idx_key_addr _ _ _ _ Hi Hy' Hx Hk) as Ha.
    apply NoDup_addrs_split in Hnd as (_ & Hn1 & Hn2).
    apply elem_of_app in Hy as [Hy|Hy];
      [apply Hn1|apply Hn2]; rewrite <- Ha; by apply list_elem_of_fmap_2. }
  split_and!.
  - destruct (Hq x Hx) as [v Hv].
    rewrite map_size_delete_Some by eauto. rewrite Hsz, !length_app. simpl. lia.
  - intros k vp Hk. apply lookup_delete_Some in Hk as [Hkx Hk].
    destruct (Hm k vp Hk) as (a & e & Hp & Hin). exists a, e. split; [done|].
    rewrite elem_of_app, elem_of_cons in Hin. rewrite elem_of_app.
    destruct Hin as [?|[<-|?]]; [by left|by simpl in Hkx|by right].
  - intros y Hy. destruct (Hq y) as [v Hv]; [set_solver|].
    exists v. rewrite lookup_delete_ne; [done|]. intros Hk. by eapply Hne.
Qed.

Lemma idx_insert m P Q k v i e :
  idx m (P ++ Q) → m !! k = None →
  idx (<[k := ValuePtr v (Some i)]> m) (P ++ Cell i k e :: Q).
Proof.
  intros Hi Hk. pose proof Hi as (Hsz & Hm & Hq). split_and!.
  - rewrite map_size_insert_None by done.
    rewrite Hsz, !length_app. simpl. lia.
  - intros k' vp Hk'. destruct (decide (k = k')) as [<-|Hne].
    + rewrite lookup_insert_eq in Hk'. injection Hk' as <-.
      exists i, e. split; [done|]. set_solver.
    + rewrite lookup_insert_ne in Hk' by done.
      destruct (Hm k' vp Hk') as (a & e' & Hp & Hin).
      exists a, e'. split; [done|]. set_solver.
  - intros y Hy. rewrite elem_of_app, elem_of_cons in Hy.
    assert (y = Cell i k e ∨ y ∈ P ++ Q) as [->|Hy'] by set_solver.
    + simpl. rewrite lookup_insert_eq. eauto.
    + rewrite lookup_insert_ne; [by apply Hq|].
      intros Hkk. by eapply idx_absent.
Qed.

Lemma idx_move m L1 x L2 P Q e :
  idx m (L1 ++ x :: L2) → P ++ Q = L1 ++ L2 →
  idx m (P ++ Cell (c_addr x) (c_key x) e :: Q).
Proof.
  intros (Hsz & Hm & Hq) HPQ. split_and!.
  - rewrite Hsz, !length_app. simpl. rewrite !Nat.add_succ_r.
    by rewrite <- !length_app, HPQ.
  - intros k vp Hk. destruct (Hm k vp Hk) as (a & e' & Hp & Hin).
    rewrite elem_of_app, elem_of_cons in Hin.
    destruct Hin as [Hin|[<-|Hin]].
    + exists a, e'. split; [done|].
      assert (Cell a k e' ∈ P ++ Q) by (rewrite HPQ; set_solver). set_solver.
    + exists a, e. split; [done|]. set_solver.
    + exists a, e'. split; [done|].
      assert (Cell a k e' ∈ P ++ Q) by (rewrite HPQ; set_solver). set_solver.
  - intros y Hy.
    assert (y = Cell (c_addr x) (c_key x) e ∨ y ∈ P ++ Q) as [->|Hy']
      by set_solver.
    + simpl. apply Hq. set_solver.
    + rewrite HPQ in Hy'. apply Hq. set_solver.
Qed.

Lemma idx_swap m L k vp v :
  idx m L → m !! k = Some vp → idx (<[k := ValuePtr v (Ptr vp)]> m) L.
Proof.
  intros (Hsz & Hm & Hq) Hk. split_and!.
  - by rewrite map_size_insert_Some by eauto.
  - intros k' vp' Hk'. destruct (decide (k = k')) as [<-|Hne].
    + rewrite lookup_insert_eq in Hk'. injection Hk' as <-. simpl. eauto.
    + rewrite lookup_insert_ne in Hk' by done. eauto.
  - intros y Hy. destruct (Hq y Hy) as [v' Hv'].
    destruct (decide (k = c_key y)) as [->|Hne].
    + rewrite lookup_insert_eq. rewrite Hk in Hv'. injection Hv' as ->.
      simpl. eauto.
    + rewrite lookup_insert_ne by done. eauto.
Qed.

(** ** Order of expirations *)

Lemma sorted_app L1 L2 :
  sorted (L1 ++ L2) ↔
  sorted L1 ∧ sorted L2
  ∧ (∀ x y, x ∈ L1 → y ∈ L2 → (c_exp x ≤ c_exp y)%Z).
Proof.
  unfold sorted. rewrite fmap_app, StronglySorted_app. split.
  - intros (Hc & H1 & H2). split_and!; try done.
    intros x y Hx Hy. apply Hc; by apply list_elem_of_fmap_2.
  - intros (H1 & H2 & Hc). split_and!; try done.
    intros e1 e2 (x & -> & Hx)%list_elem_of_fmap (y & -> & Hy)%list_elem_of_fmap.
    by apply Hc.
Qed.

Lemma sorted_cons x L :
  sorted (x :: L) ↔ Forall (λ y, (c_exp x ≤ c_exp y)%Z) L ∧ sorted L.
Proof.
  unfold sorted. rewrite fmap_cons, StronglySorted_cons, Forall_fmap. done.
Qed.

Lemma sorted_remove L1 x L2 : sorted (L1 ++ x :: L2) → sorted (L1 ++ L2).
Proof.
  rewrite !sorted_app, sorted_cons. intros (H1 & [Hx H2] & Hc).
  split_and!; try done. intros y z Hy Hz. apply Hc; set_solver.
Qed.

Lemma sorted_insert P Q a k e :
  sorted (P ++ Q) →
  Forall (λ x, (c_exp x ≤ e)%Z) P →
  Forall (λ x, (e ≤ c_exp x)%Z) Q →
  sorted (P ++ Cell a k e :: Q).
Proof.
  rewrite !sorted_app, sorted_cons, !Forall_forall.
  intros (H1 & H2 & Hc) HP HQ. split_and!; try done.
  intros x y Hx [->|Hy]%elem_of_cons; [by apply HP|by apply Hc].
Qed.

Lemma sorted_below_last P e :
  sorted P →
  (P = [] ∨ ∃ P' w, P = P' ++ [w] ∧ (c_exp w < e)%Z) →
  Forall (λ x, (c_exp x < e)%Z) P.
Proof.
  intros Hs [->|(P' & w & -> & Hw)]; [done|].
  apply sorted_app in Hs as (_ & _ & Hc).
  apply Forall_forall. intros x [Hx| ->%list_elem_of_singleton]%elem_of_app;
    [|done].
  assert (w ∈ [w]) as Hw' by set_solver.
  specialize (Hc x w Hx Hw'). lia.
Qed.

Lemma sorted_above_first Q e :
  sorted Q →
  (Q = [] ∨ ∃ z Q', Q = z :: Q' ∧ (e < c_exp z)%Z) →
  Forall (λ x, (e < c_exp x)%Z) Q.
Proof.
  intros Hs [->|(z & Q' & -> & Hz)]; [done|].
  apply sorted_cons in Hs as (Hc & _).
  apply Forall_cons. split; [done|].
  eapply Forall_impl; [exact Hc|]. simpl. intros; lia.
Qed.

(** ** The queue read by following [Next] *)

Lemma walk_seg L : ∀ h p fuel,
  seg h p L None → length L ≤ fuel → walk fuel h (first_ptr L None) = L.
Proof.
  induction L as [|x L IH]; intros h p fuel Hs Hf; simpl.
  - by destruct fuel.
  - destruct fuel as [|fuel]; [simpl in Hf; lia|]. simpl in *.
    destruct Hs as [Hx Hs]. rewrite Hx. simpl.
    rewrite (IH h (Some (c_addr x)) fuel) by (done || lia). by destruct x.
Qed.

Lemma repr_length c L : repr c L → length L ≤ next c.
Proof.
  intros (Hs & Hnd & _ & _ & Hb).
  rewrite <- (length_fmap c_addr).
  transitivity (length (seq 0 (next c))); [|by rewrite length_seq].
  apply submseteq_length, NoDup_submseteq; [done|].
  intros a (x & -> & Hx)%list_elem_of_fmap. apply elem_of_seq.
  destruct (seg_elem _ _ _ _ _ Hs Hx) as (pp & nn & Hl).
  pose proof (bounded_lookup _ _ _ _ Hb Hl). lia.
Qed.

Lemma queue_repr c L : repr c L → queue c = L.
Proof.
  intros Hr. pose proof (repr_length _ _ Hr) as Hlen.
  destruct Hr as (Hs & _ & Hh & _). unfold queue. rewrite Hh.
  by eapply walk_seg.
Qed.

Lemma repr_unique c L L' : repr c L → repr c L' → L = L'.
Proof. intros H1 H2. by rewrite <- (queue_repr c L), <- (queue_repr c L'). Qed.

(** ** [delete] *)

Ltac eval_map :=
  unfold map_lookup, map_store, map_delete, get_head, get_tail, get_next,
    set_head, set_tail, bind, ret; simpl.

Lemma repr_head_nil c : repr c [] → head c = None.
Proof. by intros (_ & _ & Hh & _). Qed.

Lemma repr_head_cons c L1 x L2 :
  repr c (L1 ++ x :: L2) → ∃ a, head c = Some a.
Proof.
  intros (_ & _ & Hh & _). rewrite Hh, first_ptr_app. destruct L1; simpl; eauto.
Qed.

Lemma delete_absent c key :
  cache c !! key = None → delete zero key c = Done false c.
Proof.
  intros Hk. unfold delete. eval_map. destruct (head c); [|done].
  by rewrite Hk.
Qed.

Lemma delete_present c L1 x L2 :
  repr c (L1 ++ x :: L2) →
  idx (cache c) (L1 ++ x :: L2) →
  ∃ c', delete zero (c_key x) c = Done true c'
        ∧ repr c' (L1 ++ L2)
        ∧ idx (cache c') (L1 ++ L2)
        ∧ cache c' = base.delete (c_key x) (cache c)
        ∧ next c' = next c ∧ timer c' = timer c.
Proof.
  intros Hr Hi. pose proof Hi as (_ & _ & Hq).
  destruct (Hq x) as [v Hv]; [set_solver|].
  destruct (repr_head_cons _ _ _ _ Hr) as [a Ha].
  destruct (remove_repr _ _ _ _ Hr) as (c' & Hrm & Hr' & _ & Hc & Hn & Ht).
  unfold delete. eval_map. rewrite Ha, Hv. simpl. rewrite Hrm.
  eexists. split; [reflexivity|]. simpl. split_and!; try done.
  - rewrite Hc. apply idx_delete; [done|]. by destruct Hr as (_ & ? & _).
  - by rewrite Hc.
Qed.

(** ** Allocation *)

Lemma new_item_repr c L k e :
  repr c L →
  ∃ c', new_item k e c = Done (Some (next c)) c'
        ∧ repr c' L
        ∧ heap c' !! next c = Some (Item None None k e)
        ∧ (next c ∉ (c_addr <$> L))
        ∧ cache c' = cache c ∧ next c' = S (next c) ∧ timer c' = timer c.
Proof.
  intros (Hs & Hnd & Hh & Ht & Hb).
  assert (next c ∉ (c_addr <$> L)) as Hfresh.
  { intros (x & Hx & Hin)%list_elem_of_fmap.
    destruct (seg_elem _ _ _ _ _ Hs Hin) as (pp & nn & Hl).
    pose proof (bounded_lookup _ _ _ _ Hb Hl). lia. }
  eexists. split; [reflexivity|]. simpl. split_and!; try done.
  - split_and!; simpl; try done.
    + by apply seg_frame.
    + intros a. destruct (decide (next c = a)) as [<-|Hne]; [lia|].
      rewrite lookup_insert_ne by done. intros Ha%Hb. lia.
  - by rewrite lookup_insert_eq.
Qed.

(** ** Filtering a key out of the queue *)

Lemma filter_keys_all L key :
  (∀ x, x ∈ L → c_key x ≠ key) → filter (λ x, c_key x ≠ key) L = L.
Proof.
  induction L as [|x L IH]; intros Hall; [done|].
  rewrite filter_cons_True by (apply Hall; set_solver).
  rewrite IH; [done|]. intros y Hy. apply Hall. set_solver.
Qed.

Lemma idx_other_keys m L1 x L2 y :
  idx m (L1 ++ x :: L2) →
  NoDup (c_addr <$> (L1 ++ x :: L2)) →
  y ∈ L1 ++ L2 → c_key y ≠ c_key x.
Proof.
  intros Hi Hnd Hy Hk.
  assert (x ∈ L1 ++ x :: L2) as Hx by set_solver.
  assert (y ∈ L1 ++ x :: L2) as Hy' by set_solver.
  pose proof (idx_key_addr _ _ _ _ Hi Hy' Hx Hk) as Ha.
  apply NoDup_addrs_split in Hnd as (_ & Hn1 & Hn2).
  apply elem_of_app in Hy as [Hy|Hy];
    [apply Hn1|apply Hn2]; rewrite <- Ha; by apply list_elem_of_fmap_2.
Qed.

Lemma filter_keys_split m L1 x L2 :
  idx m (L1 ++ x :: L2) →
  NoDup (c_addr <$> (L1 ++ x :: L2)) →
  filter (λ y, c_key y ≠ c_key x) (L1 ++ x :: L2) = L1 ++ L2.
Proof.
  intros Hi Hnd.
  rewrite filter_app, filter_cons_False by (intros Hn; by apply Hn).
  rewrite <- filter_app. apply filter_keys_all.
  intros y Hy. by eapply idx_other_keys.
Qed.

(** ** [Set] *)

Lemma wf_New : wf (New (K:=K) (V:=V)).
Proof.
  exists []. split_and!.
  - split_and!; simpl; [done|constructor|done|done|].
    intros a [it Hit]. by rewrite lookup_empty in Hit.
  - split_and!; simpl.
    + done.
    + intros k vp Hk. by rewrite lookup_empty in Hk.
    + intros x Hx. by apply elem_of_nil in Hx.
  - constructor.
Qed.

Lemma sorted_filter L (P : cell (K:=K) → Prop) `{∀ x, Decision (P x)} :
  sorted L → sorted (filter P L).
Proof.
  induction L as [|x L IH]; [done|].
  rewrite sorted_cons. intros [Hx HL].
  destruct (decide (P x)).
  - rewrite filter_cons_True by done. apply sorted_cons. split; [|by apply IH].
    apply Forall_forall. intros y [_ Hy]%list_elem_of_filter.
    rewrite Forall_forall in Hx. by apply Hx.
  - rewrite filter_cons_False by done. by apply IH.
Qed.

(** The state after the optional [delete] at the start of [Set]. *)
Lemma Set_clear {A} (rest : M A) c L key :
  repr c L → idx (cache c) L →
  ∃ c1,
    (r <- map_lookup zero key ;;
     (if snd r then delete zero key ;; ret tt else ret tt) ;;
     rest) c = rest c1
    ∧ repr c1 (filter (λ x, c_key x ≠ key) L)
    ∧ idx (cache c1) (filter (λ x, c_key x ≠ key) L)
    ∧ cache c1 = base.delete key (cache c)
    ∧ next c1 = next c ∧ timer c1 = timer c.
Proof.
  intros Hr Hi. eval_map. destruct (cache c !! key) as [vp|] eqn:Hk; simpl.
  - destruct (idx_find _ _ _ _ Hi Hk) as (L1 & x & L2 & -> & <- & Hp).
    destruct (delete_present _ _ _ _ Hr Hi) as (c1 & -> & Hr1 & Hi1 & ? & ? & ?).
    exists c1. erewrite filter_keys_split; [|done|by destruct Hr as (_ & ? & _)].
    done.
  - exists c. rewrite filter_keys_all by (intros x Hx; by eapply idx_absent).
    rewrite delete_id by done. done.
Qed.

Lemma Set_repr c L now key value ttl :
  repr c L → idx (cache c) L → sorted L →
  ∃ c' P Q,
    Set_ zero now key value ttl c = Done tt c'
    ∧ P ++ Q = filter (λ x, c_key x ≠ key) L
    ∧ repr c' (P ++ Cell (next c) key (now + ttl) :: Q)
    ∧ idx (cache c') (P ++ Cell (next c) key (now + ttl) :: Q)
    ∧ sorted (P ++ Cell (next c) key (now + ttl) :: Q)
    ∧ Forall (λ x, (c_exp x < now + ttl)%Z) P
    ∧ Forall (λ x, (now + ttl ≤ c_exp x)%Z) Q
    ∧ cache c' = <[key := ValuePtr value (Some (next c))]> (cache c)
    ∧ next c' = S (next c)
    ∧ timer c' = (if P is [] then Some (now + ttl)%Z else timer c).
Proof.
  intros Hr Hi Hso. unfold Set_.
  match goal with
  | |- context [bind (map_lookup zero key) (λ r, bind _ (λ _, ?k))] =>
      destruct (Set_clear k c L key Hr Hi)
        as (c1 & -> & Hr1 & Hi1 & Hc1 & Hn1 & Ht1)
  end.
  pose proof (sorted_filter L (λ x, c_key x ≠ key) Hso) as Hso1.
  pose proof (repr_length _ _ Hr1) as Hlen.
  destruct (new_item_repr _ _ key (now + ttl)%Z Hr1)
    as (c2 & Hnew & Hr2 & Hi2 & Hfresh & Hc2 & Hn2 & Ht2).
  assert (cache c1 !! key = None) as Hnone by (by rewrite Hc1, lookup_delete_eq).
  assert (<[key := ValuePtr value (Some (next c))]> (cache c1)
          = <[key := ValuePtr value (Some (next c))]> (cache c)) as Hins
    by (by rewrite Hc1, insert_delete_eq).
  rewrite Hn1 in *.
  set (L0 := filter (λ x, c_key x ≠ key) L) in *.
  unfold bind at 1. rewrite Hnew. eval_map.
  destruct L0 as [|y A _] using rev_ind.
  - rewrite (repr_head_nil _ Hr2). eval_m.
    eexists _, [], []. split; [reflexivity|]. simpl.
    destruct Hr2 as (_ & _ & _ & _ & Hb2).
    split_and!; try done.
    + split_and!; simpl; try done. apply NoDup_singleton.
    + rewrite Hc2. by apply (idx_insert _ [] []).
    + apply (sorted_insert [] []); done.
    + by rewrite Hc2.
  - destruct (repr_head_cons _ _ _ _ Hr2) as [a ->].
    change (next (with_cache _ c2)) with (next c2).
    change (tail (with_cache _ c2)) with (tail c2).
    assert (tail c2 = Some (c_addr y)) as ->.
    { destruct Hr2 as (_ & _ & _ & -> & _). apply last_ptr_snoc. }
    rewrite Hn2.
    destruct (Set_scan_repr A y [] (S (next c))
                (with_cache (<[key:=ValuePtr value (Some (next c))]> (cache c2)) c2)
                (next c) None None key (now + ttl)%Z)
      as (c' & P & Q & Hscan & HPQ & Hr' & HQ & HP & Hc' & Hn' & Ht');
      [done|done|done|rewrite length_app in Hlen; simpl in Hlen; lia|].
    setoid_rewrite Hscan.
    rewrite app_nil_r in Hr'. simpl in Hc', Hn', Ht'.
    rewrite <- HPQ in Hso1, Hi1.
    assert (Forall (λ x, (c_exp x < now + ttl)%Z) P) as HP'.
    { apply sorted_below_last; [|done]. by apply sorted_app in Hso1 as (? & _). }
    exists c', P, Q. split_and!; try done.
    + rewrite Hc', Hc2. by apply idx_insert.
    + apply sorted_insert; [done| |done].
      eapply Forall_impl; [exact HP'|]. simpl. intros; lia.
    + by rewrite Hc', Hc2.
    + lia.
    + rewrite Ht', Ht2, Ht1. done.
Qed.

(** ** The methods that only touch the map *)

Lemma Get_eq c key :
  Get zero key c =
    Done (match cache c !! key with
          | Some vp => (Value vp, true)
          | None => (zero, false)
          end) c.
Proof. unfold Get. eval_map. by destruct (cache c !! key). Qed.

Lemma Swap_eq c key value :
  Swap zero key value c =
    match cache c !! key with
    | Some vp =>
        Done (Value vp, true)
             (with_cache (<[key := ValuePtr value (Ptr vp)]> (cache c)) c)
    | None => Done (value, false) c
    end.
Proof. unfold Swap. eval_map. by destruct (cache c !! key). Qed.

Lemma Update_eq c key value :
  Update zero key value c = Done (bool_decide (is_Some (cache c !! key))) c.
Proof.
  unfold Update. eval_map. by destruct (cache c !! key) as [vp|].
Qed.

Lemma Swap_wf c key value r c' :
  wf c → Swap zero key value c = Done r c' → wf c'.
Proof.
  intros (L & Hr & Hi & Hso). rewrite Swap_eq.
  destruct (cache c !! key) as [vp|] eqn:Hk; intros [= <- <-].
  - exists L. split_and!; [done| |done]. by apply idx_swap.
  - by exists L.
Qed.

(** ** [Delete], [GetAndDelete] and the firing of the timer *)

Lemma wf_with_timer c t : wf c → wf (with_timer t c).
Proof. intros (L & Hr & Hi & Hso). by exists L. Qed.

Lemma Delete_absent c L key :
  repr c L → idx (cache c) L → cache c !! key = None →
  Delete zero key c = Done false c.
Proof.
  intros Hr Hi Hk. unfold Delete. destruct L as [|x L].
  - eval_map. rewrite (repr_head_nil _ Hr). eval_map.
    rewrite (delete_absent _ _ Hk). by rewrite (repr_head_nil _ Hr).
  - destruct (repr_head_lookup _ _ _ Hr) as [Hh Hx].
    eval_get. rewrite Hh. simpl. rewrite Hx. simpl.
    rewrite (delete_absent _ _ Hk). rewrite Hh.
    rewrite bool_decide_eq_false_2; [done|].
    eapply idx_absent; [done..|set_solver].
Qed.

Lemma Delete_present c L1 x L2 :
  repr c (L1 ++ x :: L2) → idx (cache c) (L1 ++ x :: L2) →
  ∃ c', Delete zero (c_key x) c = Done true c'
        ∧ repr c' (L1 ++ L2)
        ∧ idx (cache c') (L1 ++ L2)
        ∧ cache c' = base.delete (c_key x) (cache c)
        ∧ next c' = next c
        ∧ timer c' =
            match L1, L2 with
            | [], z :: _ => Some (c_exp z)
            | _, _ => timer c
            end.
Proof.
  intros Hr Hi.
  destruct (delete_present _ _ _ _ Hr Hi) as (c1 & Hd & Hr1 & Hi1 & Hc1 & Hn1 & Ht1).
  unfold Delete. destruct L1 as [|w L1]; simpl in *.
  - destruct (repr_head_lookup _ _ _ Hr) as [Hh Hx].
    eval_get. rewrite Hh. simpl. rewrite Hx. simpl. rewrite Hd.
    rewrite bool_decide_eq_true_2 by done.
    destruct L2 as [|z L2].
    + rewrite (repr_head_nil _ Hr1). by exists c1.
    + destruct (repr_head_lookup _ _ _ Hr1) as [Hh1 _]. rewrite Hh1.
      rewrite (setTimer_repr _ _ _ Hr1). eexists. split; [done|].
      by split_and!.
  - destruct (repr_head_lookup _ _ _ Hr) as [Hh Hw].
    eval_get. rewrite Hh. simpl. rewrite Hw. simpl. rewrite Hd.
    destruct (repr_head_lookup _ _ _ Hr1) as [Hh1 _]. rewrite Hh1.
    rewrite bool_decide_eq_false_2.
    + by exists c1.
    + destruct Hr as (_ & Hnd & _).
      apply (idx_other_keys _ (w :: L1) x L2 w Hi Hnd). set_solver.
Qed.

Lemma GetAndDelete_absent c key :
  cache c !! key = None → GetAndDelete zero key c = Done (zero, false) c.
Proof. intros Hk. unfold GetAndDelete. eval_map. by rewrite Hk. Qed.

Lemma GetAndDelete_present c L1 x L2 :
  repr c (L1 ++ x :: L2) → idx (cache c) (L1 ++ x :: L2) →
  ∃ c' v, cache c !! c_key x = Some (ValuePtr v (Some (c_addr x)))
        ∧ GetAndDelete zero (c_key x) c = Done (v, true) c'
        ∧ repr c' (L1 ++ L2)
        ∧ idx (cache c') (L1 ++ L2)
        ∧ cache c' = base.delete (c_key x) (cache c)
        ∧ next c' = next c
        ∧ timer c' = timer c.
Proof.
  intros Hr Hi.
  destruct (delete_present _ _ _ _ Hr Hi) as (c1 & Hd & Hr1 & Hi1 & Hc1 & Hn1 & Ht1).
  pose proof Hi as (_ & _ & Hq). destruct (Hq x) as [v Hv]; [set_solver|].
  exists c1, v. unfold GetAndDelete. eval_map. rewrite Hv. simpl. rewrite Hd.
  done.
Qed.

Lemma ticker_repr c L :
  repr c L → idx (cache c) L →
  ∃ c', ticker c = Done tt c'
        ∧ repr c' (drop 1 L)
        ∧ idx (cache c') (drop 1 L)
        ∧ next c' = next c.
Proof.
  intros Hr Hi. unfold ticker. destruct L as [|x L].
  - eval_map. rewrite (repr_head_nil _ Hr). simpl.
    rewrite (repr_head_nil _ Hr). by exists c.
  - destruct (repr_head_lookup _ _ _ Hr) as [Hh Hx].
    eval_get. unfold map_delete. rewrite Hh. simpl. rewrite Hx. simpl.
    rewrite Hh.
    destruct (remove_repr (with_cache (base.delete (c_key x) (cache c)) c)
                [] x L Hr) as (c1 & Hrm & Hr1 & _ & Hc1 & Hn1 & Ht1).
    setoid_rewrite Hrm. simpl in *.
    assert (idx (cache c1) L) as Hi1.
    { rewrite Hc1. apply (idx_delete _ [] x L Hi). by destruct Hr as (_ & ? & _). }
    destruct L as [|z L].
    + rewrite (repr_head_nil _ Hr1). by exists c1.
    + destruct (repr_head_lookup _ _ _ Hr1) as [Hh1 _]. rewrite Hh1.
      rewrite (setTimer_repr _ _ _ Hr1). eexists. by split_and!.
Qed.

(** ** [Evict] *)

Lemma Evict_loop_repr L : ∀ c fuel n evicted,
  repr c L → idx (cache c) L →
  Z.to_nat (n - evicted) ≤ fuel →
  let r := Nat.min (Z.to_nat (n - evicted)) (length L) in
  ∃ c', Evict_loop zero fuel n evicted c = Done (evicted + Z.of_nat r)%Z c'
        ∧ repr c' (drop r L)
        ∧ idx (cache c') (drop r L)
        ∧ (∀ k, cache c' !! k =
                if decide (k ∈ c_key <$> take r L) then None else cache c !! k)
        ∧ next c' = next c ∧ timer c' = timer c.
Proof.
  induction L as [|x L IH]; intros c fuel n evicted Hr Hi Hf r.
  - exists c. subst r. rewrite Nat.min_0_r. simpl. rewrite Z.add_0_r.
    split_and!; try done.
    destruct fuel; simpl; (destruct (evicted <? n)%Z; [|done]);
      unfold bind, get_head, ret; by rewrite (repr_head_nil _ Hr).
  - destruct (Z.ltb_spec evicted n) as [Hlt|Hge].
    + destruct (repr_head_lookup _ _ _ Hr) as [Hh Hx].
      destruct (delete_present c [] x L Hr Hi)
        as (c1 & Hd & Hr1 & Hi1 & Hc1 & Hn1 & Ht1).
      destruct fuel as [|fuel]; [lia|].
      destruct (IH c1 fuel n (evicted + 1)%Z Hr1 Hi1 ltac:(lia))
        as (c' & Hl & Hr' & Hi' & Hm' & Hn' & Ht').
      assert (r = S (Nat.min (Z.to_nat (n - (evicted + 1))) (length L))) as Er.
      { subst r. simpl. lia. }
      rewrite Er. clear Er r.
      exists c'. simpl in *. split_and!; try done; try congruence.
      * apply Z.ltb_lt in Hlt. rewrite Hlt. eval_get. rewrite Hh. simpl.
        rewrite Hx. simpl. rewrite Hd, Hl. f_equal. lia.
      * intros k. rewrite Hm', Hc1.
        set (T := take _ L).
        change (list_fmap cell K c_key T) with (c_key <$> T).
        destruct (decide (k = c_key x)) as [->|Hne].
        -- rewrite lookup_delete_eq.
           rewrite (decide_True (P:=c_key x ∈ c_key x :: _))
             by (apply elem_of_cons; by left).
           by destruct (decide _).
        -- rewrite lookup_delete_ne by done.
           destruct (decide (k ∈ c_key <$> T)) as [Hin|Hnin].
           ++ rewrite decide_True by (apply elem_of_cons; by right). done.
           ++ rewrite decide_False; [done|].
              rewrite elem_of_cons. tauto.
    + assert (r = 0) as -> by (subst r; lia).
      exists c. simpl. rewrite Z.add_0_r. split_and!; try done.
      apply Z.ltb_ge in Hge. destruct fuel; simpl; by rewrite Hge.
Qed.

Lemma Evict_repr c L n :
  repr c L → idx (cache c) L →
  let r := Nat.min (Z.to_nat n) (length L) in
  ∃ c', Evict zero n c = Done (Z.of_nat r) c'
        ∧ repr c' (drop r L)
        ∧ idx (cache c') (drop r L)
        ∧ (∀ k, cache c' !! k =
                if decide (k ∈ c_key <$> take r L) then None else cache c !! k)
        ∧ next c' = next c.
Proof.
  intros Hr Hi r.
  destruct (Evict_loop_repr L c (Z.to_nat n) n 0 Hr Hi)
    as (c1 & Hl & Hr1 & Hi1 & Hm1 & Hn1 & Ht1).
  { rewrite Z.sub_0_r. lia. }
  rewrite Z.sub_0_r, Z.add_0_l in *. fold r in Hl, Hr1, Hi1, Hm1.
  unfold Evict, bind at 1. rewrite Hl. eval_map.
  destruct (drop r L) as [|z L'] eqn:HL.
  - rewrite (repr_head_nil _ Hr1). by exists c1.
  - destruct (repr_head_lookup _ _ _ Hr1) as [-> _].
    destruct (0 <? Z.of_nat r)%Z.
    + rewrite (setTimer_repr _ _ _ Hr1). eexists. by split_and!.
    + by exists c1.
Qed.

(** ** [Refresh] *)

Lemma Refresh_absent c now key ttl :
  cache c !! key = None → Refresh zero now key ttl c = Done false c.
Proof. intros Hk. unfold Refresh. eval_map. by rewrite Hk. Qed.

Lemma repr_head_item c L :
  repr c L → L ≠ [] →
  ∃ y, y ∈ L ∧ get_Key (head c) c = Done (c_key y) c
       ∧ setTimer c = Done tt (with_timer (Some (c_exp y)) c).
Proof.
  intros Hr Hne. destruct L as [|y L]; [done|].
  exists y. split; [set_solver|]. split; [|by eapply setTimer_repr].
  destruct (repr_head_lookup _ _ _ Hr) as [Hh Hy]. rewrite Hh. eval_get. done.
Qed.

Lemma Refresh_single c x now ttl :
  repr c [x] → idx (cache c) [x] →
  ∃ c', Refresh zero now (c_key x) ttl c = Panic c'
        ∧ head c' = None ∧ tail c' = None ∧ cache c' = cache c.
Proof.
  intros Hr Hi. pose proof Hi as (_ & _ & Hq).
  destruct (Hq x) as [v Hv]; [set_solver|].
  destruct (repr_head_item _ _ Hr) as (y & _ & Hk & _); [done|].
  destruct (remove_repr c [] x [] Hr) as (c1 & Hrm & Hr1 & Hx1 & Hc1 & _).
  simpl in *. unfold Refresh. eval_map. rewrite Hv. simpl.
  unfold bind. rewrite Hk, Hrm. eval_get.
  destruct Hr1 as (_ & _ & Hh1 & Ht1 & Hb1). simpl in *.
  pose proof (bounded_lookup _ _ _ _ Hb1 Hx1) as Hpos.
  exists c1. split; [|done].
  destruct (next c1) as [|fuel]; [lia|].
  by destruct (_ <? _)%Z.
Qed.

(** Re-insertion of the unlinked node by the scans of [Refresh]. *)
Lemma Refresh_reinsert c L1 L2 i k e expires :
  L1 ++ L2 ≠ [] →
  repr c (L1 ++ L2) →
  heap c !! i = Some (Item None None k e) →
  i ∉ (c_addr <$> (L1 ++ L2)) →
  sorted (L1 ++ L2) →
  Forall (λ y, (c_exp y ≤ e)%Z) L1 →
  Forall (λ y, (e ≤ c_exp y)%Z) L2 →
  ∃ c' P Q,
    (if (e <? expires)%Z
     then Refresh_tailward (next c) expires (Some i)
            (first_ptr L2 (last_ptr None L1))
     else Refresh_headward (next c) expires (Some i)
            (first_ptr L2 (last_ptr None L1))) c = Done tt c'
    ∧ P ++ Q = L1 ++ L2
    ∧ repr c' (P ++ Cell i k e :: Q)
    ∧ Forall (λ y, (c_exp y ≤ expires)%Z) P
    ∧ Forall (λ y, (expires ≤ c_exp y)%Z) Q
    ∧ cache c' = cache c ∧ next c' = next c ∧ timer c' = timer c.
Proof.
  intros Hne Hr Hi Hni Hso H1 H2.
  pose proof (repr_length _ _ Hr) as Hlen. rewrite length_app in Hlen.
  assert (i < next c) as Hpos.
  { destruct Hr as (_ & _ & _ & _ & Hb). by eapply bounded_lookup. }
  destruct (Z.ltb_spec e expires) as [Hlt|Hge].
  - (* towards the tail *)
    assert (Forall (λ y, (c_exp y ≤ expires)%Z) L1) as H1'.
    { eapply Forall_impl; [exact H1|]. simpl. intros; lia. }
    destruct L2 as [|z L2].
    + destruct L1 as [|w L1 _] using rev_ind; [by rewrite app_nil_r in Hne|].
      rewrite app_nil_r in *. simpl. rewrite last_ptr_snoc.
      destruct (Refresh_tailward_repr [] L1 w (next c) c i None None k e expires)
        as (c' & P & Q & -> & HPQ & Hr' & HP & HQ & ? & ? & ?);
        [done|done|done|simpl; lia|].
      exists c', (L1 ++ P), Q. rewrite <- !app_assoc. split_and!; try done.
      * by rewrite HPQ.
      * apply Forall_app. split; [|done]. by apply Forall_app in H1' as [? _].
      * destruct HQ as [->|(z & Q' & -> & Hz)]; [done|].
        destruct P; [|by destruct P]. injection HPQ as -> ->.
        apply Forall_singleton. lia.
    + simpl.
      destruct (Refresh_tailward_repr L2 L1 z (next c) c i None None k e expires)
        as (c' & P & Q & -> & HPQ & Hr' & HP & HQ & ? & ? & ?);
        [done|done|done|simpl in Hlen; lia|].
      exists c', (L1 ++ P), Q. rewrite <- !app_assoc. split_and!; try done.
      * by rewrite HPQ.
      * by apply Forall_app.
      * apply sorted_app in Hso as (_ & Hso2 & _). rewrite <- HPQ in Hso2.
        apply sorted_app in Hso2 as (_ & HsoQ & _).
        pose proof (sorted_above_first _ _ HsoQ HQ) as HQ'.
        eapply Forall_impl; [exact HQ'|]. simpl. intros; lia.
  - (* towards the head *)
    assert (Forall (λ y, (expires ≤ c_exp y)%Z) L2) as H2'.
    { eapply Forall_impl; [exact H2|]. simpl. intros; lia. }
    destruct L2 as [|z L2].
    + destruct L1 as [|w L1 _] using rev_ind; [by rewrite app_nil_r in Hne|].
      rewrite app_nil_r in *. simpl. rewrite last_ptr_snoc.
      destruct (Refresh_headward_repr L1 w [] (next c) c i None None k e expires)
        as (c' & P & Q & -> & HPQ & Hr' & HQ & HP & ? & ? & ?);
        [done|done|done|rewrite length_app in Hlen; simpl in Hlen; lia|].
      rewrite app_nil_r in Hr'.
      exists c', P, Q. split_and!; try done.
      rewrite <- HPQ in Hso. apply sorted_app in Hso as (HsoP & _).
      pose proof (sorted_below_last _ _ HsoP HP) as HP'.
      eapply Forall_impl; [exact HP'|]. simpl. intros; lia.
    + simpl.
      destruct (Refresh_headward_repr L1 z L2 (next c) c i None None k e expires)
        as (c' & P & Q & -> & HPQ & Hr' & HQ & HP & ? & ? & ?);
        [done|done|done|simpl in Hlen; lia|].
      exists c', P, (Q ++ L2). split_and!; try done.
      * rewrite app_assoc, HPQ, <- app_assoc. done.
      * assert (sorted (P ++ Q)) as HsoPQ.
        { rewrite HPQ.
          replace (L1 ++ z :: L2) with ((L1 ++ [z]) ++ L2) in Hso
            by (by rewrite <- app_assoc).
          by apply sorted_app in Hso as (? & _). }
        apply sorted_app in HsoPQ as (HsoP & _).
        pose proof (sorted_below_last _ _ HsoP HP) as HP'.
        eapply Forall_impl; [exact HP'|]. simpl. intros; lia.
      * apply Forall_app. split; [done|]. by apply Forall_cons in H2' as [_ ?].
Qed.

Lemma Refresh_present c L1 x L2 now ttl :
  L1 ++ L2 ≠ [] →
  repr c (L1 ++ x :: L2) →
  idx (cache c) (L1 ++ x :: L2) →
  sorted (L1 ++ x :: L2) →
  ∃ c' P Q,
    Refresh zero now (c_key x) ttl c = Done true c'
    ∧ P ++ Q = L1 ++ L2
    ∧ repr c' (P ++ Cell (c_addr x) (c_key x) (now + ttl) :: Q)
    ∧ idx (cache c') (P ++ Cell (c_addr x) (c_key x) (now + ttl) :: Q)
    ∧ sorted (P ++ Cell (c_addr x) (c_key x) (now + ttl) :: Q)
    ∧ Forall (λ y, (c_exp y ≤ now + ttl)%Z) P
    ∧ Forall (λ y, (now + ttl ≤ c_exp y)%Z) Q
    ∧ cache c' = cache c ∧ next c' = next c.
Proof.
  intros Hne Hr Hi Hso. pose proof Hi as (_ & _ & Hq).
  destruct (Hq x) as [v Hv]; [set_solver|].
  destruct (repr_head_item _ _ Hr) as (y & _ & Hk & _); [by destruct L1|].
  destruct (remove_repr c L1 x L2 Hr) as (c1 & Hrm & Hr1 & Hx1 & Hc1 & Hn1 & _).
  assert (c_addr x ∉ (c_addr <$> (L1 ++ L2))) as Hni.
  { destruct Hr as (_ & Hnd & _).
    apply NoDup_addrs_split in Hnd as (_ & ? & ?).
    rewrite fmap_app, not_elem_of_app. done. }
  pose proof (sorted_remove _ _ _ Hso) as Hso1.
  apply sorted_app in Hso as (_ & [Hx2 _]%sorted_cons & Hx1').
  assert (Forall (λ y, (c_exp y ≤ c_exp x)%Z) L1) as HL1.
  { apply Forall_forall. intros w Hw. apply Hx1'; set_solver. }
  destruct (Refresh_reinsert c1 L1 L2 (c_addr x) (c_key x) (c_exp x)
              (now + ttl)%Z Hne Hr1 Hx1 Hni Hso1 HL1 Hx2)
    as (c2 & P & Q & Hre & HPQ & Hr2 & HP & HQ & Hc2 & Hn2 & _).
  destruct (set_Expires_repr c2 P (Cell (c_addr x) (c_key x) (c_exp x)) Q
              (now + ttl)%Z Hr2) as (c3 & Hse & Hr3 & Hc3 & Hn3 & _).
  simpl in Hse, Hr3.
  destruct (repr_head_item _ _ Hr3) as (y3 & _ & Hk3 & Hst3); [by destruct P|].
  unfold Refresh. eval_map. rewrite Hv. simpl.
  unfold bind. rewrite Hk, Hrm.
  unfold get_Expires, load, bind, ret, get_next. rewrite Hx1. simpl.
  rewrite Hre. simpl. rewrite Hse. unfold get_head. rewrite Hk3.
  assert (idx (cache c) (P ++ Cell (c_addr x) (c_key x) (now + ttl) :: Q))
    as Hi3 by (by eapply idx_move).
  assert (sorted (P ++ Cell (c_addr x) (c_key x) (now + ttl) :: Q)) as Hso3.
  { apply sorted_insert; [by rewrite HPQ|done..]. }
  destruct (_ || _).
  - rewrite Hst3. eexists _, P, Q. split; [reflexivity|]. simpl.
    split_and!; try done; congruence.
  - exists c3, P, Q. split_and!; try done; congruence.
Qed.

(** ** Every call keeps the cache well formed *)

Lemma sorted_drop L n : sorted L → sorted (drop n L).
Proof.
  intros Hso. rewrite <- (take_drop n L) in Hso.
  by apply sorted_app in Hso as (_ & ? & _).
Qed.

(** A call either returns in a well-formed cache, or it is a [Refresh] of
    the only entry, which faults. *)
Lemma exec_total o c :
  wf c →
  (∃ c', exec zero o c = Done tt c' ∧ wf c')
  ∨ (∃ now key ttl c',
       o = CRefresh now key ttl ∧ is_Some (cache c !! key)
       ∧ size (cache c) = 1 ∧ exec zero o c = Panic c').
Proof.
  intros (L & Hr & Hi & Hso).
  destruct o as [now key value ttl|key|key value|key|key|key value
                |now key ttl|n| |now]; simpl; unfold bind.
  - left. destruct (Set_repr c L now key value ttl Hr Hi Hso)
      as (c' & P & Q & -> & _ & Hr' & Hi' & Hso' & _).
    exists c'. split; [done|]. by eexists.
  - left. rewrite Get_eq. exists c. split; [done|]. by exists L.
  - left. destruct (Swap zero key value c) as [r c'| |] eqn:Hs.
    + exists c'. split; [done|]. eapply Swap_wf; [|done]. by exists L.
    + rewrite Swap_eq in Hs. by destruct (cache c !! key).
    + rewrite Swap_eq in Hs. by destruct (cache c !! key).
  - left. destruct (cache c !! key) as [vp|] eqn:Hk.
    + destruct (idx_find _ _ _ _ Hi Hk) as (L1 & x & L2 & -> & <- & Hp).
      destruct (Delete_present _ _ _ _ Hr Hi) as (c' & -> & Hr' & Hi' & _).
      exists c'. split; [done|]. exists (L1 ++ L2).
      split_and!; try done. by eapply sorted_remove.
    + rewrite (Delete_absent _ _ _ Hr Hi Hk). exists c. split; [done|].
      by exists L.
  - left. destruct (cache c !! key) as [vp|] eqn:Hk.
    + destruct (idx_find _ _ _ _ Hi Hk) as (L1 & x & L2 & -> & <- & Hp).
      destruct (GetAndDelete_present _ _ _ _ Hr Hi)
        as (c' & v & _ & -> & Hr' & Hi' & _).
      exists c'. split; [done|]. exists (L1 ++ L2).
      split_and!; try done. by eapply sorted_remove.
    + rewrite (GetAndDelete_absent _ _ Hk). exists c. split; [done|].
      by exists L.
  - left. rewrite Update_eq. exists c. split; [done|]. by exists L.
  - destruct (cache c !! key) as [vp|] eqn:Hk.
    + destruct (idx_find _ _ _ _ Hi Hk) as (L1 & x & L2 & -> & <- & Hp).
      destruct (decide (L1 ++ L2 = [])) as [Hnil|Hne].
      * right. apply app_eq_nil in Hnil as [-> ->]. simpl in *.
        destruct (Refresh_single _ _ now ttl Hr Hi) as (c' & Hp' & _).
        exists now, (c_key x), ttl, c'. rewrite Hp'.
        split_and!; try done. by destruct Hi as (-> & _).
      * left. destruct (Refresh_present _ _ _ _ now ttl Hne Hr Hi Hso)
          as (c' & P & Q & -> & _ & Hr' & Hi' & Hso' & _).
        exists c'. split; [done|]. by eexists.
    + left. rewrite (Refresh_absent _ _ _ _ Hk). exists c. split; [done|].
      by exists L.
  - left. destruct (Evict_repr c L n Hr Hi) as (c' & -> & Hr' & Hi' & _).
    exists c'. split; [done|]. eexists. split_and!; try done.
    by apply sorted_drop.
  - left. exists c. split; [done|]. by exists L.
  - left. unfold elapse. destruct (timer c) as [d|]; [|by exists c; split; [|exists L]].
    destruct (d <=? now)%Z; [|by exists c; split; [|exists L]].
    destruct (ticker_repr (with_timer None c) L Hr Hi) as (c' & -> & Hr' & Hi' & _).
    exists c'. split; [done|]. eexists. split_and!; try done.
    by apply sorted_drop.
Qed.

Lemma exec_wf o c c' : wf c → exec zero o c = Done tt c' → wf c'.
Proof.
  intros Hwf He. destruct (exec_total o c Hwf) as [(c'' & He' & Hwf')|Hp].
  - rewrite He in He'. by injection He' as ->.
  - destruct Hp as (? & ? & ? & ? & _ & _ & _ & He'). congruence.
Qed.

Lemma run_wf ops : ∀ c c', wf c → run zero ops c = Done tt c' → wf c'.
Proof.
  induction ops as [|o ops IH]; intros c c' Hwf; simpl.
  - by intros [= <-].
  - unfold bind. destruct (exec zero o c) as [[] c1| |] eqn:He; [|done..].
    intros Hrun. eapply IH; [|done]. by eapply exec_wf.
Qed.

Lemma run_New_wf ops c : run zero ops New = Done tt c → wf c.
Proof. apply run_wf, wf_New. Qed.

(** ** What a well-formed cache shows from outside *)

Lemma wf_observable c :
  wf c →
  size (cache c) = length (queue c)
  ∧ (∀ k vp, cache c !! k = Some vp →
       ∃ a e, Ptr vp = Some a ∧ Cell a k e ∈ queue c)
  ∧ (∀ x, x ∈ queue c →
       ∃ v, cache c !! c_key x = Some (ValuePtr v (Some (c_addr x))))
  ∧ NoDup (c_addr <$> queue c)
  ∧ StronglySorted Z.le (c_exp <$> queue c).
Proof.
  intros (L & Hr & (Hsz & Hm & Hq) & Hso). rewrite (queue_repr _ _ Hr).
  split_and!; try done. by destruct Hr as (_ & ? & _).
Qed.

Lemma wf_repr_queue c : wf c → repr c (queue c) ∧ idx (cache c) (queue c) ∧ sorted (queue c).
Proof. intros (L & Hr & Hi & Hso). by rewrite (queue_repr _ _ Hr). Qed.

(** ** [Range] *)

Lemma Range_keys_repr L : ∀ c p fuel,
  seg (heap c) p L None → length L ≤ fuel →
  Range_keys fuel (first_ptr L None) c = Done (c_key <$> L) c.
Proof.
  induction L as [|x L IH]; intros c p fuel Hs Hf; simpl.
  - by destruct fuel.
  - destruct fuel as [|fuel]; [simpl in Hf; lia|]. simpl in *.
    destruct Hs as [Hx Hs]. eval_get.
    rewrite (IH c (Some (c_addr x)) fuel) by (done || lia). done.
Qed.

Lemma Range_snapshot fn c :
  wf c → Range zero fn c = Range_loop zero fn (c_key <$> queue c) c.
Proof.
  intros (Hr & _)%wf_repr_queue. pose proof (repr_length _ _ Hr) as Hlen.
  destruct Hr as (Hs & _ & Hh & _).
  unfold Range, bind, get_next, get_head. rewrite Hh.
  by rewrite (Range_keys_repr _ _ None).
Qed.

(** One turn of the visiting loop. *)
Lemma Range_loop_cons fn k ks c :
  Range_loop zero fn (k :: ks) c =
    match fn k (value_at zero c k) c with
    | Done true c1 =>
        match Range_loop zero fn ks c1 with
        | Done calls c2 => Done ((k, value_at zero c k) :: calls) c2
        | Panic c2 => Panic c2
        | Abort => Abort
        end
    | Done false c1 => Done [(k, value_at zero c k)] c1
    | Panic c1 => Panic c1
    | Abort => Abort
    end.
Proof.
  simpl. unfold bind, map_lookup, ret, value_at.
  destruct (cache c !! k); simpl; by destruct (fn k _ c) as [[] ?| |].
Qed.

Lemma turns_length fn ks : ∀ c ck,
  continues zero fn ks c ck → length (turns zero fn ks c) = length ks.
Proof.
  induction ks as [|k ks IH]; intros c ck; simpl; [done|].
  intros (c1 & -> & Hc). f_equal. by eapply IH.
Qed.

(** After callbacks that all ask to continue, the loop goes on with the
    remaining keys from the cache they leave. *)
Lemma Range_loop_continues fn ks1 : ∀ rest c ck,
  continues zero fn ks1 c ck →
  Range_loop zero fn (ks1 ++ rest) c =
    match Range_loop zero fn rest ck with
    | Done calls c2 => Done (turns zero fn ks1 c ++ calls) c2
    | Panic c2 => Panic c2
    | Abort => Abort
    end.
Proof.
  induction ks1 as [|k1 ks1 IH]; intros rest c ck.
  - simpl. intros ->. by destruct (Range_loop zero fn rest c).
  - simpl continues. intros (c1 & Hk1 & Hc).
    rewrite <- app_comm_cons, Range_loop_cons, Hk1, (IH rest c1 ck Hc).
    simpl turns. rewrite Hk1.
    by destruct (Range_loop zero fn rest ck).
Qed.

Lemma Range_loop_wf fn ks : ∀ c calls c',
  (∀ k v c0 b c1, wf c0 → fn k v c0 = Done b c1 → wf c1) →
  wf c → Range_loop zero fn ks c = Done calls c' → wf c'.
Proof.
  induction ks as [|k ks IH]; intros c calls c' Hfn Hwf.
  - simpl. by intros [= _ <-].
  - rewrite Range_loop_cons.
    destruct (fn k _ c) as [[] c1| |] eqn:Hk; [| |done..].
    + destruct (Range_loop zero fn ks c1) as [calls1 c2| |] eqn:Hl; [|done..].
      intros [= _ <-]. eapply IH; [done| |done]. by eapply Hfn.
    + intros [= _ <-]. by eapply Hfn.
Qed.

Lemma Range_wf fn c calls c' :
  (∀ k v c0 b c1, wf c0 → fn k v c0 = Done b c1 → wf c1) →
  wf c → Range zero fn c = Done calls c' → wf c'.
Proof.
  intros Hfn Hwf. rewrite Range_snapshot by done. by apply Range_loop_wf.
Qed.

(** ** [Refresh] on a cache built by calls *)

(** With two or more entries [Refresh] of a present key returns [true],
    the node of the key carries the new expiration and the other nodes
    keep their order. *)
Lemma Refresh_two_or_more ops c now key ttl :
  run zero ops New = Done tt c →
  is_Some (cache c !! key) → 1 < size (cache c) →
  ∃ c' a P Q,
    Refresh zero now key ttl c = Done true c'
    ∧ queue c' = P ++ Cell a key (now + ttl) :: Q
    ∧ P ++ Q = filter (λ x, c_key x ≠ key) (queue c)
    ∧ Forall (λ y, (c_exp y ≤ now + ttl)%Z) P
    ∧ Forall (λ y, (now + ttl ≤ c_exp y)%Z) Q
    ∧ cache c' = cache c.
Proof.
  intros (Hr & Hi & Hso)%run_New_wf%wf_repr_queue [vp Hk] Hsz.
  destruct (idx_find _ _ _ _ Hi Hk) as (L1 & x & L2 & HL & <- & Hp).
  rewrite HL in Hr, Hi, Hso.
  assert (L1 ++ L2 ≠ []) as Hne.
  { destruct Hi as (Hlen & _). rewrite Hlen, length_app in Hsz.
    simpl in Hsz. intros [-> ->]%app_eq_nil. simpl in Hsz. lia. }
  destruct (Refresh_present c L1 x L2 now ttl Hne Hr Hi Hso)
    as (c' & P & Q & HR & HPQ & Hr' & _ & _ & HP & HQ & Hc & _).
  exists c', (c_addr x), P, Q. rewrite (queue_repr _ _ Hr'), HL.
  split_and!; try done.
  rewrite HPQ. symmetry. eapply filter_keys_split; [done|].
  by destruct Hr as (_ & ? & _).
Qed.

(** With exactly one entry [Refresh] of its key faults, and at the fault
    the queue is already empty. *)
Lemma Refresh_only_entry ops c now key ttl :
  run zero ops New = Done tt c →
  is_Some (cache c !! key) → size (cache c) = 1 →
  ∃ c', Refresh zero now key ttl c = Panic c'
        ∧ head c' = None ∧ tail c' = None ∧ cache c' = cache c.
Proof.
  intros (Hr & Hi & Hso)%run_New_wf%wf_repr_queue [vp Hk] Hsz.
  destruct (idx_find _ _ _ _ Hi Hk) as (L1 & x & L2 & HL & <- & Hp).
  rewrite HL in Hr, Hi.
  assert (L1 = [] ∧ L2 = []) as [-> ->].
  { destruct Hi as (Hlen & _). rewrite Hlen, length_app in Hsz.
    simpl in Hsz. destruct L1, L2; simpl in Hsz; try lia. done. }
  by apply Refresh_single.
Qed.

(** ** The claims of the specification *)

(** C7.  After every completed call (any sequence of [Set], [Get], [Swap],
    [Delete], [GetAndDelete], [Update], [Refresh], [Evict], [Len] and
    timer firings on a new cache), the map and the queue have the same
    number of entries, the node reference of every map entry is a node
    of the queue carrying that key, every queue node belongs to a map
    entry, no node occurs twice, and the expirations read from head to
    tail never decrease. *)
Theorem invariants_after_calls ops c :
  run zero ops New = Done tt c →
  size (cache c) = length (queue c)
  ∧ (∀ k vp, cache c !! k = Some vp →
       ∃ a e, Ptr vp = Some a ∧ Cell a k e ∈ queue c)
  ∧ (∀ x, x ∈ queue c →
       ∃ v, cache c !! c_key x = Some (ValuePtr v (Some (c_addr x))))
  ∧ NoDup (c_addr <$> queue c)
  ∧ StronglySorted Z.le (c_exp <$> queue c).
Proof. intros Hrun. by apply wf_observable, (run_New_wf ops). Qed.


(** C8.  On a cache of [m] entries [Evict n] returns
    [r = min (max n 0) m], the queue loses its first [r] nodes, which are
    the [r] entries expiring earliest, exactly their keys leave the map,
    and nothing else changes; so [n ≥ 0] removes [min n m] entries,
    [m < n] removes all [m], and an empty cache gives [0]. *)
Theorem Evict_removes_earliest ops c n :
  run zero ops New = Done tt c →
  let m := size (cache c) in
  let r := Nat.min (Z.to_nat n) m in
  ∃ c', Evict zero n c = Done (Z.of_nat r) c'
        ∧ queue c' = drop r (queue c)
        ∧ size (cache c') = m - r
        ∧ (∀ k, cache c' !! k =
                if decide (k ∈ c_key <$> take r (queue c))
                then None else cache c !! k)
        ∧ (∀ x y, x ∈ take r (queue c) → y ∈ queue c' →
                  (c_exp x ≤ c_exp y)%Z)
        ∧ ((0 ≤ n)%Z → Z.of_nat r = Z.min n (Z.of_nat m))
        ∧ ((Z.of_nat m < n)%Z → r = m ∧ queue c' = [])
        ∧ (m = 0 → r = 0).
Proof.
  intros (Hr & Hi & Hso)%run_New_wf%wf_repr_queue m r.
  assert (m = length (queue c)) as Hm by (by destruct Hi as (? & _)).
  destruct (Evict_repr c _ n Hr Hi) as (c' & HE & Hr' & Hi' & Hk' & _).
  rewrite <- Hm in HE, Hr', Hi', Hk'. fold r in HE, Hr', Hi', Hk'.
  exists c'. rewrite (queue_repr _ _ Hr'). split_and!; try done.
  - destruct Hi' as (-> & _). rewrite length_drop. lia.
  - intros x y Hx Hy. rewrite <- (take_drop r (queue c)) in Hso.
    apply sorted_app in Hso as (_ & _ & Hc). by apply Hc.
  - intros Hn. subst r. lia.
  - intros Hn. assert (r = m) as Hrm by (subst r; lia).
    split; [done|]. rewrite Hrm, Hm. apply drop_all.
  - intros Hz. subst r. lia.
Qed.

(** C9.  [Swap] on a present key stores the new value under the same
    node reference and returns the old value and [true]; the queue, the
    heap of nodes and the timer are untouched.  On an absent key it
    returns its own value argument and [false] and changes nothing. *)
Theorem Swap_replaces_in_place c key value :
  match cache c !! key with
  | Some vp =>
      ∃ c', Swap zero key value c = Done (Value vp, true) c'
            ∧ cache c' = <[key := ValuePtr value (Ptr vp)]> (cache c)
            ∧ heap c' = heap c ∧ head c' = head c ∧ tail c' = tail c
            ∧ next c' = next c ∧ timer c' = timer c
            ∧ queue c' = queue c
            ∧ Get zero key c' = Done (value, true) c'
  | None => Swap zero key value c = Done (value, false) c
  end.
Proof.
  rewrite Swap_eq. destruct (cache c !! key) as [vp|] eqn:Hk; [|done].
  eexists. split; [reflexivity|]. split_and!; try done.
  rewrite Get_eq. simpl. by rewrite lookup_insert_eq.
Qed.

(** C10.  [Range] visits the keys of its snapshot one after the other.
    When every callback before the snapshot key [k] has asked to
    continue and [k] is no longer in the map at its turn, [Range] does
    not skip [k]: it calls the callback for [k] with the zero value, on
    the cache the earlier callbacks left, and goes on or stops as that
    call says.  In particular the call for [k] with the zero value is in
    the list of the calls made, at the place of [k] in the snapshot. *)
Theorem Range_calls_deleted_key_with_zero ops c fn ks1 k ks2 ck :
  run zero ops New = Done tt c →
  c_key <$> queue c = ks1 ++ k :: ks2 →
  continues zero fn ks1 c ck →
  cache ck !! k = None →
  Range zero fn c =
    match fn k zero ck with
    | Done true c1 =>
        match Range_loop zero fn ks2 c1 with
        | Done calls c2 =>
            Done (turns zero fn ks1 c ++ (k, zero) :: calls) c2
        | Panic c2 => Panic c2
        | Abort => Abort
        end
    | Done false c1 => Done (turns zero fn ks1 c ++ [(k, zero)]) c1
    | Panic c1 => Panic c1
    | Abort => Abort
    end
  ∧ length (turns zero fn ks1 c) = length ks1
  ∧ (∀ calls c', Range zero fn c = Done calls c' →
       calls !! length ks1 = Some (k, zero)).
Proof.
  intros Hwf%run_New_wf Hks Hcont Hnone.
  pose proof (turns_length _ _ _ _ Hcont) as Hlen.
  assert (value_at zero ck k = zero) as Hz
    by (unfold value_at; by rewrite Hnone).
  assert (Range zero fn c =
    match fn k zero ck with
    | Done true c1 =>
        match Range_loop zero fn ks2 c1 with
        | Done calls c2 =>
            Done (turns zero fn ks1 c ++ (k, zero) :: calls) c2
        | Panic c2 => Panic c2
        | Abort => Abort
        end
    | Done false c1 => Done (turns zero fn ks1 c ++ [(k, zero)]) c1
    | Panic c1 => Panic c1
    | Abort => Abort
    end) as HR.
  { rewrite Range_snapshot, Hks by done.
    rewrite (Range_loop_continues fn ks1 (k :: ks2) c ck Hcont).
    rewrite Range_loop_cons, Hz.
    destruct (fn k zero ck) as [[] c1| |]; [|done..].
    by destruct (Range_loop zero fn ks2 c1). }
  split_and!; [exact HR|exact Hlen|].
  intros calls c'. rewrite HR.
  destruct (fn k zero ck) as [[] c1| |]; [| |done..].
  - destruct (Range_loop zero fn ks2 c1) as [calls1 c2| |]; [|done..].
    intros [= <- _]. rewrite lookup_app_r by lia.
    by rewrite Hlen, Nat.sub_diag.
  - intros [= <- _]. rewrite lookup_app_r by lia.
    by rewrite Hlen, Nat.sub_diag.
Qed.

(** ** Further properties of the methods *)

(** No call runs forever or reads an unallocated node: on a cache built
    by calls every call returns, except a [Refresh] of the only entry,
    which faults. *)
Theorem calls_complete ops c o :
  run zero ops New = Done tt c →
  (∃ c', exec zero o c = Done tt c')
  ∨ (∃ now key ttl c',
       o = CRefresh now key ttl ∧ is_Some (cache c !! key)
       ∧ size (cache c) = 1 ∧ exec zero o c = Panic c').
Proof.
  intros Hwf%run_New_wf.
  destruct (exec_total o c Hwf) as [(c' & He & _)|Hp]; [left; eauto|by right].
Qed.

(** No key has two queue nodes. *)
Theorem keys_unique ops c :
  run zero ops New = Done tt c → NoDup (c_key <$> queue c).
Proof.
  intros (Hr & Hi & _)%run_New_wf%wf_repr_queue.
  destruct Hr as (_ & Hnd & _). revert Hnd Hi.
  generalize (cache c). induction (queue c) as [|x L IH]; intros m Hnd Hi.
  - constructor.
  - rewrite fmap_cons. apply NoDup_cons. split.
    + intros (y & Hk & Hy)%list_elem_of_fmap.
      apply (idx_other_keys m [] x L y Hi Hnd Hy). done.
    + apply (IH (base.delete (c_key x) m)).
      * rewrite fmap_cons in Hnd. by apply NoDup_cons in Hnd as [_ ?].
      * by apply (idx_delete m [] x L).
Qed.

(** [Set] followed by [Get] of the same key returns the value just set;
    the other keys keep their map entries, and the number of entries
    grows by one exactly when the key was absent. *)
Theorem Set_then_Get ops c now key value ttl :
  run zero ops New = Done tt c →
  ∃ c', Set_ zero now key value ttl c = Done tt c'
        ∧ Get zero key c' = Done (value, true) c'
        ∧ (∀ k, k ≠ key → cache c' !! k = cache c !! k)
        ∧ size (cache c') =
            (if cache c !! key is Some _ then size (cache c)
             else S (size (cache c)))
        ∧ length (queue c') = size (cache c').
Proof.
  intros (Hr & Hi & Hso)%run_New_wf%wf_repr_queue.
  destruct (Set_repr c _ now key value ttl Hr Hi Hso)
    as (c' & P & Q & HS & HPQ & Hr' & Hi' & _ & _ & _ & Hc & _).
  exists c'. rewrite (queue_repr _ _ Hr'). split_and!; try done.
  - rewrite Get_eq, Hc, lookup_insert_eq. done.
  - intros k Hk. by rewrite Hc, lookup_insert_ne.
  - rewrite Hc, map_size_insert. by destruct (cache c !! key).
  - by destruct Hi' as (-> & _).
Qed.

(** [Set] leaves a non-empty queue, and when the node it adds is not the
    head of that queue it does not call [setTimer]: the outstanding wait
    is left as it is. *)
Theorem Set_keeps_timer ops c now key value ttl :
  run zero ops New = Done tt c →
  ∃ c' x L',
    Set_ zero now key value ttl c = Done tt c'
    ∧ queue c' = x :: L'
    ∧ (c_key x ≠ key → timer c' = timer c).
Proof.
  intros (Hr & Hi & Hso)%run_New_wf%wf_repr_queue.
  destruct (Set_repr c _ now key value ttl Hr Hi Hso)
    as (c' & P & Q & HS & HPQ & Hr' & _ & _ & _ & _ & _ & _ & Ht).
  pose proof (queue_repr _ _ Hr') as Hq.
  destruct P as [|y P]; simpl in *.
  - eexists c', _, _. split_and!; try done.
  - exists c', y, (P ++ Cell (next c) key (now + ttl) :: Q).
    split_and!; done.
Qed.

(** [Delete] of an absent key returns [false] and changes nothing.  For a
    present key it returns [true], the key leaves the map, its node
    leaves the queue and the other nodes keep their order; when the
    removed node was not the head, or no entry remains, [setTimer] is
    not called and the outstanding wait is left as it is. *)
Theorem Delete_removes ops c key :
  run zero ops New = Done tt c →
  match cache c !! key with
  | None => Delete zero key c = Done false c
  | Some _ =>
      ∃ c', Delete zero key c = Done true c'
            ∧ cache c' = base.delete key (cache c)
            ∧ queue c' = filter (λ x, c_key x ≠ key) (queue c)
            ∧ S (length (queue c')) = length (queue c)
            ∧ match queue c, queue c' with
              | x :: _, _ :: _ => c_key x ≠ key → timer c' = timer c
              | _, _ => timer c' = timer c
              end
  end.
Proof.
  intros (Hr & Hi & Hso)%run_New_wf%wf_repr_queue.
  destruct (cache c !! key) as [vp|] eqn:Hk;
    [|by eapply Delete_absent].
  destruct (idx_find _ _ _ _ Hi Hk) as (L1 & x & L2 & HL & <- & Hp).
  rewrite HL in *.
  destruct (Delete_present _ _ _ _ Hr Hi)
    as (c' & HD & Hr' & _ & Hc & _ & Ht).
  pose proof Hr as (_ & Hnd & _).
  exists c'. rewrite (queue_repr _ _ Hr'). split_and!; try done.
  - symmetry. by eapply filter_keys_split.
  - rewrite !length_app. simpl. lia.
  - destruct L1 as [|w L1]; simpl.
    + by destruct L2 as [|z L2].
    + by destruct (L1 ++ L2).
Qed.

(** [GetAndDelete] of an absent key returns the zero value and [false]
    and changes nothing.  For a present key it returns the stored value
    and [true] and removes the entry as [Delete] does, but it never
    touches the timer. *)
Theorem GetAndDelete_removes ops c key :
  run zero ops New = Done tt c →
  match cache c !! key with
  | None => GetAndDelete zero key c = Done (zero, false) c
  | Some vp =>
      ∃ c', GetAndDelete zero key c = Done (Value vp, true) c'
            ∧ cache c' = base.delete key (cache c)
            ∧ queue c' = filter (λ x, c_key x ≠ key) (queue c)
            ∧ Get zero key c' = Done (zero, false) c'
            ∧ timer c' = timer c
  end.
Proof.
  intros (Hr & Hi & Hso)%run_New_wf%wf_repr_queue.
  destruct (cache c !! key) as [vp|] eqn:Hk;
    [|by eapply GetAndDelete_absent].
  destruct (idx_find _ _ _ _ Hi Hk) as (L1 & x & L2 & HL & <- & Hp).
  rewrite HL in *.
  destruct (GetAndDelete_present _ _ _ _ Hr Hi)
    as (c' & v & Hv & HD & Hr' & _ & Hc & _ & Ht).
  pose proof Hr as (_ & Hnd & _).
  rewrite Hk in Hv. injection Hv as ->.
  exists c'. rewrite (queue_repr _ _ Hr'). split_and!; try done.
  - symmetry. by eapply filter_keys_split.
  - by rewrite Get_eq, Hc, lookup_delete_eq.
Qed.

(** [Set] of a key that was absent, followed by [Delete] of that key,
    gives back the map and the queue of before. *)
Theorem Set_then_Delete ops c now key value ttl :
  run zero ops New = Done tt c →
  cache c !! key = None →
  ∃ c' c'', Set_ zero now key value ttl c = Done tt c'
            ∧ Delete zero key c' = Done true c''
            ∧ cache c'' = cache c
            ∧ queue c'' = queue c.
Proof.
  intros (Hr & Hi & Hso)%run_New_wf%wf_repr_queue Hk.
  destruct (Set_repr c _ now key value ttl Hr Hi Hso)
    as (c' & P & Q & HS & HPQ & Hr' & Hi' & _ & _ & _ & Hc & _).
  destruct (Delete_present c' P (Cell (next c) key (now + ttl)) Q Hr' Hi')
    as (c'' & HD & Hr'' & _ & Hc'' & _).
  exists c', c''. simpl in *. split_and!; try done.
  - rewrite Hc'', Hc, delete_insert_eq. by apply delete_id.
  - rewrite (queue_repr _ _ Hr''), HPQ. apply filter_keys_all.
    intros x Hx. by apply (idx_absent _ _ _ _ Hi Hk).
Qed.

(** ** The queue primitives on a cache built by calls *)

(** [remove] unlinks the node: the other nodes keep their order, the
    unlinked node has both links [nil], and the result is the successor
    of the node, its predecessor when it was the tail, and [nil] when it
    was alone. *)
Theorem remove_unlinks ops c L1 x L2 :
  run zero ops New = Done tt c →
  queue c = L1 ++ x :: L2 →
  ∃ c', remove (Some (c_addr x)) c
          = Done (first_ptr L2 (last_ptr None L1)) c'
        ∧ queue c' = L1 ++ L2
        ∧ heap c' !! c_addr x = Some (Item None None (c_key x) (c_exp x))
        ∧ cache c' = cache c ∧ timer c' = timer c.
Proof.
  intros (Hr & _)%run_New_wf%wf_repr_queue Hq. rewrite Hq in Hr.
  destruct (remove_repr _ _ _ _ Hr) as (c' & HR & Hr' & Hx & Hc & _ & Ht).
  exists c'. by rewrite (queue_repr _ _ Hr').
Qed.

(** [insertAfter] links an allocated node that is not in the queue
    right after the given node. *)
Theorem insertAfter_links ops c L1 y L2 i pi ni k e :
  run zero ops New = Done tt c →
  queue c = L1 ++ y :: L2 →
  heap c !! i = Some (Item pi ni k e) →
  i ∉ (c_addr <$> queue c) →
  ∃ c', insertAfter (Some i) (Some (c_addr y)) c = Done tt c'
        ∧ queue c' = L1 ++ y :: Cell i k e :: L2
        ∧ cache c' = cache c ∧ timer c' = timer c.
Proof.
  intros (Hr & _)%run_New_wf%wf_repr_queue Hq Hi Hni. rewrite Hq in Hr, Hni.
  destruct (insertAfter_repr _ _ _ _ _ _ _ _ _ Hr Hi Hni)
    as (c' & HI & Hr' & Hc & _ & Ht).
  exists c'. by rewrite (queue_repr _ _ Hr').
Qed.

(** [insertBefore] links an allocated node that is not in the queue
    right before the given node. *)
Theorem insertBefore_links ops c L1 y L2 i pi ni k e :
  run zero ops New = Done tt c →
  queue c = L1 ++ y :: L2 →
  heap c !! i = Some (Item pi ni k e) →
  i ∉ (c_addr <$> queue c) →
  ∃ c', insertBefore (Some i) (Some (c_addr y)) c = Done tt c'
        ∧ queue c' = L1 ++ Cell i k e :: y :: L2
        ∧ cache c' = cache c ∧ timer c' = timer c.
Proof.
  intros (Hr & _)%run_New_wf%wf_repr_queue Hq Hi Hni. rewrite Hq in Hr, Hni.
  destruct (insertBefore_repr _ _ _ _ _ _ _ _ _ Hr Hi Hni)
    as (c' & HI & Hr' & Hc & _ & Ht).
  exists c'. by rewrite (queue_repr _ _ Hr').
Qed.

(** ** The firing of the timer *)

Lemma ticker_cache c L :
  repr c L → idx (cache c) L →
  ∃ c', ticker c = Done tt c'
        ∧ repr c' (drop 1 L)
        ∧ idx (cache c') (drop 1 L)
        ∧ cache c' = match L with
                     | x :: _ => base.delete (c_key x) (cache c)
                     | [] => cache c
                     end.
Proof.
  intros Hr Hi. unfold ticker. destruct L as [|x L].
  - eval_map. rewrite (repr_head_nil _ Hr). simpl.
    rewrite (repr_head_nil _ Hr). by exists c.
  - destruct (repr_head_lookup _ _ _ Hr) as [Hh Hx].
    eval_get. unfold map_delete. rewrite Hh. simpl. rewrite Hx. simpl.
    rewrite Hh.
    destruct (remove_repr (with_cache (base.delete (c_key x) (cache c)) c)
                [] x L Hr) as (c1 & Hrm & Hr1 & _ & Hc1 & Hn1 & Ht1).
    setoid_rewrite Hrm. simpl in *.
    assert (idx (cache c1) L) as Hi1.
    { rewrite Hc1. apply (idx_delete _ [] x L Hi). by destruct Hr as (_ & ? & _). }
    destruct L as [|z L].
    + rewrite (repr_head_nil _ Hr1). by exists c1.
    + destruct (repr_head_lookup _ _ _ Hr1) as [Hh1 _]. rewrite Hh1.
      rewrite (setTimer_repr _ _ _ Hr1). eexists. by split_and!.
Qed.

(** The body of [ticker] after its timer has fired: the head entry,
    whatever its expiration, leaves the map and the queue, and the other
    entries stay as they are, in their order; the removed entry expires
    no later than any entry that stays.  On an empty cache nothing is
    removed. *)
Theorem ticker_removes_head ops c :
  run zero ops New = Done tt c →
  ∃ c', ticker c = Done tt c'
        ∧ queue c' = drop 1 (queue c)
        ∧ cache c' = match queue c with
                     | x :: _ => base.delete (c_key x) (cache c)
                     | [] => cache c
                     end
        ∧ length (queue c') = size (cache c')
        ∧ (∀ x y, x ∈ take 1 (queue c) → y ∈ queue c' →
                  (c_exp x ≤ c_exp y)%Z).
Proof.
  intros (Hr & Hi & Hso)%run_New_wf%wf_repr_queue.
  destruct (ticker_cache c _ Hr Hi) as (c' & HT & Hr' & Hi' & Hc).
  exists c'. rewrite (queue_repr _ _ Hr'). split_and!; try done.
  - by destruct Hi' as (-> & _).
  - intros x y Hx Hy. rewrite <- (take_drop 1 (queue c)) in Hso.
    apply sorted_app in Hso as (_ & _ & Hle). by apply Hle.
Qed.

(** ** [Range] with a callback that only reads *)

Lemma Range_loop_reader (f : K → V → bool) ks c :
  Range_loop zero (λ k v, ret (f k v)) ks c
  = Done (visited f ((λ k, (k, value_at zero c k)) <$> ks)) c.
Proof.
  induction ks as [|k ks IH]; [done|].
  rewrite Range_loop_cons. unfold ret at 1. rewrite fmap_cons. simpl.
  destruct (f k (value_at zero c k)); [|done]. by rewrite IH.
Qed.

(** [Range] calls the callback for the entries in queue order, from the
    earliest expiration on, each with its stored value, and stops after
    the first call that answers [false]; the cache is not changed. *)
Theorem Range_in_queue_order ops c (f : K → V → bool) :
  run zero ops New = Done tt c →
  Range zero (λ k v, ret (f k v)) c
  = Done (visited f ((λ x, (c_key x, value_at zero c (c_key x))) <$> queue c)) c.
Proof.
  intros Hwf%run_New_wf. rewrite Range_snapshot by done.
  rewrite Range_loop_reader. by rewrite <- list_fmap_compose.
Qed.

End Proofs.

(** * The claims on sample caches *)

Section Samples.

Open Scope Z_scope.

(** C1.  [Update] reports success on a present key but stores nothing:
    after [Set(1, 10, 100)], [Update(1, 20)] returns [true] and leaves
    the cache as it was, so [Get(1)] still returns 10, not 20. *)
Theorem Update_does_not_store :
  run 0 one_entry New = Done tt (state_after one_entry)
  ∧ Update 0 1 20 (state_after one_entry) = Done true (state_after one_entry)
  ∧ Get 0 1 (state_after one_entry) = Done (10, true) (state_after one_entry)
  ∧ Get 0 1 (state_after one_entry) ≠ Done (20, true) (state_after one_entry).
Proof.
  split_and!; try (vm_compute; reflexivity).
  vm_compute. intros Heq. discriminate Heq.
Qed.

(** C2.  [Refresh] of the only entry of a cache faults: [remove] returns
    [nil] for a node without neighbours and the scan dereferences it. *)
Theorem Refresh_of_only_entry_faults :
  run 0 one_entry New = Done tt (state_after one_entry)
  ∧ size (cache (state_after one_entry)) = 1%nat
  ∧ is_Some (cache (state_after one_entry) !! 1)
  ∧ ∃ c', Refresh 0 0 1 350 (state_after one_entry) = Panic c'.
Proof.
  split_and!.
  - vm_compute. reflexivity.
  - vm_compute. reflexivity.
  - vm_compute. eexists. reflexivity.
  - vm_compute. eexists. reflexivity.
Qed.

(** C3.  After [GetAndDelete] of the head entry, and after [Set] replaces
    the head entry by one that expires later, the outstanding wait still
    targets the expiration of the removed head (100) and not that of the
    new head (200). *)
Theorem timer_left_on_removed_head :
  (run 0 (two_entries ++ [CGetAndDelete 1]) New
     = Done tt (state_after (two_entries ++ [CGetAndDelete 1]))
   ∧ queue (state_after (two_entries ++ [CGetAndDelete 1])) = [Cell 1 2 200]
   ∧ timer (state_after (two_entries ++ [CGetAndDelete 1])) = Some 100
   ∧ ¬ armed_for_head (state_after (two_entries ++ [CGetAndDelete 1])))
  ∧ (run 0 (two_entries ++ [CSet 0 1 11 300]) New
       = Done tt (state_after (two_entries ++ [CSet 0 1 11 300]))
     ∧ queue (state_after (two_entries ++ [CSet 0 1 11 300]))
         = [Cell 1 2 200; Cell 2 1 300]
     ∧ timer (state_after (two_entries ++ [CSet 0 1 11 300])) = Some 100
     ∧ ¬ armed_for_head (state_after (two_entries ++ [CSet 0 1 11 300]))).
Proof.
  split; split_and!; try (vm_compute; reflexivity);
    vm_compute; intros Heq; discriminate Heq.
Qed.

(** C5.  Key 2 is set at time 0 with a time-to-live of 200 and never
    touched again.  After [GetAndDelete(1)] the wait for time 100 is still
    outstanding; when it fires, [ticker] removes the head, which is now
    key 2: at time 100 [Get(2)] reports not found. *)
Theorem untouched_entry_removed_early :
  run 0 (two_entries ++ [CGetAndDelete 1; CElapse 100]) New
    = Done tt (state_after (two_entries ++ [CGetAndDelete 1; CElapse 100]))
  ∧ Get 0 2 (state_after (two_entries ++ [CGetAndDelete 1; CElapse 99]))
    = Done (20, true) (state_after (two_entries ++ [CGetAndDelete 1; CElapse 99]))
  ∧ Get 0 2 (state_after (two_entries ++ [CGetAndDelete 1; CElapse 100]))
    = Done (0, false) (state_after (two_entries ++ [CGetAndDelete 1; CElapse 100])).
Proof. split_and!; vm_compute; reflexivity. Qed.

(** C6.  The faulting [Refresh] has already unlinked the node: at the
    fault the queue is empty while the map still holds the key. *)
Theorem Refresh_fault_leaves_partial_state :
  ∃ c', Refresh 0 0 1 350 (state_after one_entry) = Panic c'
        ∧ queue (state_after one_entry) = [Cell 0 1 100]
        ∧ queue c' = []
        ∧ head c' = None ∧ tail c' = None
        ∧ cache c' = cache (state_after one_entry)
        ∧ cache c' !! 1 = Some (ValuePtr 10 (Some 0%nat)).
Proof. vm_compute. eexists. split_and!; reflexivity. Qed.


(** ** The general theorems at sample caches *)

(** C7 on the cache reached by [mixed_calls]. *)
Lemma invariants_after_calls_witness :
  run 0 mixed_calls New = Done tt (state_after mixed_calls)
  ∧ (size (cache (state_after mixed_calls))
       = length (queue (state_after mixed_calls))
     ∧ (∀ k vp, cache (state_after mixed_calls) !! k = Some vp →
          ∃ a e, Ptr vp = Some a ∧ Cell a k e ∈ queue (state_after mixed_calls))
     ∧ (∀ x, x ∈ queue (state_after mixed_calls) →
          ∃ v, cache (state_after mixed_calls) !! c_key x
                 = Some (ValuePtr v (Some (c_addr x))))
     ∧ NoDup (c_addr <$> queue (state_after mixed_calls))
     ∧ StronglySorted Z.le (c_exp <$> queue (state_after mixed_calls))).
Proof.
  split; [vm_compute; reflexivity|].
  apply (invariants_after_calls 0 mixed_calls). vm_compute. reflexivity.
Defined.


(** C8 for [Evict(2)] on three entries. *)
Lemma Evict_removes_earliest_witness :
  run 0 three_entries New = Done tt (state_after three_entries)
  ∧ ∃ c', Evict 0 2 (state_after three_entries) = Done 2 c'
          ∧ queue c' = [Cell 2 3 300]
          ∧ size (cache c') = 1%nat.
Proof.
  split; [vm_compute; reflexivity|].
  destruct (Evict_removes_earliest 0 three_entries (state_after three_entries) 2)
    as (c' & HE & Hq & Hs & _); [vm_compute; reflexivity|].
  exists c'. split_and!.
  - exact HE.
  - rewrite Hq. vm_compute. reflexivity.
  - rewrite Hs. vm_compute. reflexivity.
Defined.

(** C10 for a callback that deletes key 3 while [Range] visits key 1: both
    callbacks before key 3 ask to continue, key 3 is gone at its turn,
    and it is still visited, with the zero value. *)
Lemma Range_calls_deleted_key_with_zero_witness :
  run 0 three_entries New = Done tt (state_after three_entries)
  ∧ c_key <$> queue (state_after three_entries) = [1; 2] ++ 3 :: []
  ∧ continues 0 delete_later_key [1; 2] (state_after three_entries)
      (state_after (three_entries ++ [CDelete 3]))
  ∧ cache (state_after (three_entries ++ [CDelete 3])) !! 3 = None
  ∧ Range 0 delete_later_key (state_after three_entries)
      = Done [(1, 10); (2, 20); (3, 0)]
          (state_after (three_entries ++ [CDelete 3]))
  ∧ length (turns 0 delete_later_key [1; 2] (state_after three_entries))
      = length [1; 2]
  ∧ (∀ calls c',
       Range 0 delete_later_key (state_after three_entries) = Done calls c' →
       calls !! length [1; 2] = Some (3, 0)).
Proof.
  assert (run 0 three_entries New = Done tt (state_after three_entries)) as H1
    by (vm_compute; reflexivity).
  assert (c_key <$> queue (state_after three_entries) = [1; 2] ++ 3 :: [])
    as H2 by (vm_compute; reflexivity).
  assert (continues 0 delete_later_key [1; 2] (state_after three_entries)
            (state_after (three_entries ++ [CDelete 3]))) as H3.
  { exists (state_after (three_entries ++ [CDelete 3])).
    split; [vm_compute; reflexivity|].
    exists (state_after (three_entries ++ [CDelete 3])).
    split; [vm_compute; reflexivity|]. reflexivity. }
  assert (cache (state_after (three_entries ++ [CDelete 3])) !! 3 = None)
    as H4 by (vm_compute; reflexivity).
  destruct (Range_calls_deleted_key_with_zero 0 three_entries
              (state_after three_entries) delete_later_key [1; 2] 3 []
              (state_after (three_entries ++ [CDelete 3])) H1 H2 H3 H4)
    as (HR & HL & HV).
  split; [exact H1|]. split; [exact H2|]. split; [exact H3|].
  split; [exact H4|]. split; [|split; [exact HL|exact HV]].
  rewrite HR. vm_compute. reflexivity.
Defined.

(** ** The further properties at sample caches *)

Lemma calls_complete_witness :
  run 0 two_entries New = Done tt (state_after two_entries)
  ∧ ((∃ c', exec 0 (CRefresh 5 1 350) (state_after two_entries) = Done tt c')
     ∨ (∃ now key ttl c',
          CRefresh (V:=Z) 5 1 350 = CRefresh now key ttl
          ∧ is_Some (cache (state_after two_entries) !! key)
          ∧ size (cache (state_after two_entries)) = 1%nat
          ∧ exec 0 (CRefresh 5 1 350) (state_after two_entries) = Panic c')).
Proof.
  split; [vm_compute; reflexivity|].
  apply (calls_complete 0 two_entries). vm_compute. reflexivity.
Defined.

Lemma keys_unique_witness :
  run 0 mixed_calls New = Done tt (state_after mixed_calls)
  ∧ NoDup (c_key <$> queue (state_after mixed_calls)).
Proof.
  split; [vm_compute; reflexivity|].
  apply (keys_unique 0 mixed_calls). vm_compute. reflexivity.
Defined.

Lemma Set_then_Get_witness :
  run 0 two_entries New = Done tt (state_after two_entries)
  ∧ ∃ c', Set_ 0 0 1 11 300 (state_after two_entries) = Done tt c'
          ∧ Get 0 1 c' = Done (11, true) c'
          ∧ (∀ k, k ≠ 1 → cache c' !! k = cache (state_after two_entries) !! k)
          ∧ size (cache c') =
              (if cache (state_after two_entries) !! 1 is Some _
               then size (cache (state_after two_entries))
               else S (size (cache (state_after two_entries))))
          ∧ length (queue c') = size (cache c').
Proof.
  split; [vm_compute; reflexivity|].
  apply (Set_then_Get 0 two_entries). vm_compute. reflexivity.
Defined.

Lemma Set_keeps_timer_witness :
  run 0 two_entries New = Done tt (state_after two_entries)
  ∧ ∃ c' x L',
      Set_ 0 0 3 30 300 (state_after two_entries) = Done tt c'
      ∧ queue c' = x :: L'
      ∧ (c_key x ≠ 3 → timer c' = timer (state_after two_entries)).
Proof.
  split; [vm_compute; reflexivity|].
  apply (Set_keeps_timer 0 two_entries). vm_compute. reflexivity.
Defined.

Lemma Delete_removes_witness :
  run 0 two_entries New = Done tt (state_after two_entries)
  ∧ ∃ c', Delete 0 2 (state_after two_entries) = Done true c'
          ∧ cache c' = base.delete 2 (cache (state_after two_entries))
          ∧ queue c' = [Cell 0 1 100]
          ∧ timer c' = timer (state_after two_entries).
Proof.
  split; [vm_compute; reflexivity|].
  pose proof (Delete_removes 0 two_entries (state_after two_entries) 2) as HD.
  assert (cache (state_after two_entries) !! 2 = Some (ValuePtr 20 (Some 1%nat)))
    as Hk by (vm_compute; reflexivity).
  rewrite Hk in HD.
  destruct HD as (c' & HD & Hc & Hq & _ & Ht); [vm_compute; reflexivity|].
  exists c'. split; [exact HD|]. split; [exact Hc|].
  assert (queue c' = [Cell 0 1 100]) as Hq'
    by (rewrite Hq; vm_compute; reflexivity).
  split; [exact Hq'|]. rewrite Hq' in Ht.
  assert (queue (state_after two_entries) = [Cell 0 1 100; Cell 1 2 200]) as Hq0
    by (vm_compute; reflexivity).
  rewrite Hq0 in Ht. apply Ht. simpl. lia.
Defined.

Lemma GetAndDelete_removes_witness :
  run 0 two_entries New = Done tt (state_after two_entries)
  ∧ ∃ c', GetAndDelete 0 2 (state_after two_entries) = Done (20, true) c'
          ∧ Get 0 2 c' = Done (0, false) c'
          ∧ timer c' = timer (state_after two_entries).
Proof.
  split; [vm_compute; reflexivity|].
  pose proof (GetAndDelete_removes 0 two_entries (state_after two_entries) 2)
    as HD.
  assert (cache (state_after two_entries) !! 2 = Some (ValuePtr 20 (Some 1%nat)))
    as Hk by (vm_compute; reflexivity).
  rewrite Hk in HD.
  destruct HD as (c' & HD & _ & _ & HG & Ht); [vm_compute; reflexivity|].
  exists c'. split_and!; [exact HD|exact HG|exact Ht].
Defined.

Lemma Set_then_Delete_witness :
  run 0 two_entries New = Done tt (state_after two_entries)
  ∧ cache (state_after two_entries) !! 3 = None
  ∧ ∃ c' c'', Set_ 0 0 3 30 150 (state_after two_entries) = Done tt c'
              ∧ Delete 0 3 c' = Done true c''
              ∧ cache c'' = cache (state_after two_entries)
              ∧ queue c'' = queue (state_after two_entries).
Proof.
  split; [vm_compute; reflexivity|]. split; [vm_compute; reflexivity|].
  apply (Set_then_Delete 0 two_entries); vm_compute; reflexivity.
Defined.

Lemma remove_unlinks_witness :
  run 0 three_entries New = Done tt (state_after three_entries)
  ∧ queue (state_after three_entries)
      = [Cell 0 1 100] ++ Cell 1 2 200 :: [Cell 2 3 300]
  ∧ ∃ c', remove (Some 1%nat) (state_after three_entries) = Done (Some 2%nat) c'
          ∧ queue c' = [Cell 0 1 100; Cell 2 3 300]
          ∧ heap c' !! 1%nat = Some (Item None None 2 200).
Proof.
  split; [vm_compute; reflexivity|]. split; [vm_compute; reflexivity|].
  destruct (remove_unlinks 0 three_entries (state_after three_entries)
              [Cell 0 1 100] (Cell 1 2 200) [Cell 2 3 300])
    as (c' & HR & Hq & Hh & _); [vm_compute; reflexivity..|].
  exists c'. split_and!; [exact HR|exact Hq|exact Hh].
Defined.

Lemma insertAfter_links_witness :
  run 0 head_taken New = Done tt (state_after head_taken)
  ∧ queue (state_after head_taken) = [] ++ Cell 1 2 200 :: []
  ∧ heap (state_after head_taken) !! 0%nat = Some (Item None None 1 100)
  ∧ ∃ c', insertAfter (Some 0%nat) (Some 1%nat) (state_after head_taken)
            = Done tt c'
          ∧ queue c' = [Cell 1 2 200; Cell 0 1 100].
Proof.
  split; [vm_compute; reflexivity|]. split; [vm_compute; reflexivity|].
  split; [vm_compute; reflexivity|].
  destruct (insertAfter_links 0 head_taken (state_after head_taken)
              [] (Cell 1 2 200) [] 0%nat None None 1 100)
    as (c' & HI & Hq & _); [vm_compute; reflexivity..| |].
  - vm_compute. inversion 1 as [|? ? ? Hn]. inversion Hn.
  - exists c'. split; [exact HI|exact Hq].
Defined.

Lemma insertBefore_links_witness :
  run 0 head_taken New = Done tt (state_after head_taken)
  ∧ queue (state_after head_taken) = [] ++ Cell 1 2 200 :: []
  ∧ heap (state_after head_taken) !! 0%nat = Some (Item None None 1 100)
  ∧ ∃ c', insertBefore (Some 0%nat) (Some 1%nat) (state_after head_taken)
            = Done tt c'
          ∧ queue c' = [Cell 0 1 100; Cell 1 2 200].
Proof.
  split; [vm_compute; reflexivity|]. split; [vm_compute; reflexivity|].
  split; [vm_compute; reflexivity|].
  destruct (insertBefore_links 0 head_taken (state_after head_taken)
              [] (Cell 1 2 200) [] 0%nat None None 1 100)
    as (c' & HI & Hq & _); [vm_compute; reflexivity..| |].
  - vm_compute. inversion 1 as [|? ? ? Hn]. inversion Hn.
  - exists c'. split; [exact HI|exact Hq].
Defined.

Lemma ticker_removes_head_witness :
  run 0 two_entries New = Done tt (state_after two_entries)
  ∧ ∃ c', ticker (state_after two_entries) = Done tt c'
          ∧ queue c' = [Cell 1 2 200]
          ∧ cache c' !! 1 = None.
Proof.
  split; [vm_compute; reflexivity|].
  destruct (ticker_removes_head 0 two_entries (state_after two_entries))
    as (c' & HT & Hq & Hc & _); [vm_compute; reflexivity|].
  exists c'. split; [exact HT|]. split.
  - rewrite Hq. vm_compute. reflexivity.
  - rewrite Hc. vm_compute. reflexivity.
Defined.

Lemma Range_in_queue_order_witness :
  run 0 three_entries New = Done tt (state_after three_entries)
  ∧ Range 0 (λ k v, ret (negb (v =? 20))) (state_after three_entries)
    = Done [(1, 10); (2, 20)] (state_after three_entries).
Proof.
  split; [vm_compute; reflexivity|].
  rewrite (Range_in_queue_order 0 three_entries (state_after three_entries)
             (λ k v, negb (v =? 20))) by (vm_compute; reflexivity).
  vm_compute. reflexivity.
Defined.

Lemma Refresh_two_or_more_witness :
  run 0 two_entries New = Done tt (state_after two_entries)
  ∧ is_Some (cache (state_after two_entries) !! 1)
  ∧ (1 < size (cache (state_after two_entries)))%nat
  ∧ ∃ c' a P Q,
      Refresh 0 5 1 350 (state_after two_entries) = Done true c'
      ∧ queue c' = P ++ Cell a 1 (5 + 350) :: Q
      ∧ P ++ Q = filter (λ x, c_key x ≠ 1) (queue (state_after two_entries))
      ∧ Forall (λ y, c_exp y ≤ 5 + 350) P
      ∧ Forall (λ y, 5 + 350 ≤ c_exp y) Q
      ∧ cache c' = cache (state_after two_entries).
Proof.
  assert (is_Some (cache (state_after two_entries) !! 1)) as H2
    by (vm_compute; eexists; reflexivity).
  assert (1 < size (cache (state_after two_entries)))%nat as H3
    by (vm_compute; lia).
  split; [vm_compute; reflexivity|]. split; [exact H2|]. split; [exact H3|].
  apply (Refresh_two_or_more 0 two_entries); [vm_compute; reflexivity|done..].
Defined.

Lemma Refresh_only_entry_witness :
  run 0 one_entry New = Done tt (state_after one_entry)
  ∧ is_Some (cache (state_after one_entry) !! 1)
  ∧ size (cache (state_after one_entry)) = 1%nat
  ∧ ∃ c', Refresh 0 5 1 350 (state_after one_entry) = Panic c'
          ∧ head c' = None ∧ tail c' = None
          ∧ cache c' = cache (state_after one_entry).
Proof.
  assert (is_Some (cache (state_after one_entry) !! 1)) as H2
    by (vm_compute; eexists; reflexivity).
  split; [vm_compute; reflexivity|]. split; [exact H2|].
  split; [vm_compute; reflexivity|].
  apply (Refresh_only_entry 0 one_entry); [vm_compute; reflexivity|done|].
  vm_compute. reflexivity.
Defined.

End Samples.

End MCache.
